(** * PFERD: terminal conductor and HTTP crawler authentication

    A shallow embedding of [PFERD/conductor.py] and [PFERD/http_crawler.py]
    together with the properties of the two coordination cores: the
    [TerminalConductor] (buffered printing, exclusive output, progress
    bars) and the authentication bookkeeping of [HttpCrawler]
    (authentication id, authentication lock, cookie persistence).

    Python objects become records, methods become state transformers in a
    small outcome-and-state monad, context managers become higher-order
    functions that take the body of the [with] block, and the asyncio
    tasks of the crawler become a pool of control states interleaved by a
    scheduler. *)

From Stdlib Require Import QArith.
From stdpp Require Import gmap strings list fin_maps.

Local Open Scope string_scope.
Local Open Scope list_scope.

(** ** Exceptions and outcomes shared by both modules *)

(** The Python exceptions that occur in the two files.  [KeyError] is what
    the rendering engine raises for an unknown task id, [RuntimeError] is
    raised by the unimplemented [HttpCrawler._authenticate], and
    [OtherError] stands for any exception of a collaborator or of caller
    code, identified by its class name and message. *)
Inductive Exn : Type :=
| KeyError (key : nat)
| RuntimeError (msg : string)
| OtherError (cls msg : string).

(** How the execution of a piece of Python code by one task ends: it returns
    a value, it raises, or (for [await lock.acquire()] on an [asyncio.Lock]
    that the only running task already holds) it never resumes. *)
Inductive Outcome (A : Type) : Type :=
| Ret (a : A)
| Exc (e : Exn)
| Hang.
Arguments Ret {A} a.
Arguments Exc {A} e.
Arguments Hang {A}.

Definition is_hang {A} (o : Outcome A) : bool :=
  match o with Hang => true | _ => false end.

(** ** Code of one task: a state-and-outcome monad

    [Prog St A] is a piece of Python code that runs against an object of
    state [St] and ends with an [Outcome A]. *)
Section Prog.
Context {St : Type}.

Definition Prog (A : Type) : Type := St -> Outcome A * St.

Definition ret {A} (a : A) : Prog A := fun c => (Ret a, c).
Definition raise {A} (e : Exn) : Prog A := fun c => (Exc e, c).
Definition bind {A B} (m : Prog A) (k : A -> Prog B) : Prog B :=
  fun c =>
    match m c with
    | (Ret a, c') => k a c'
    | (Exc e, c') => (Exc e, c')
    | (Hang, c') => (Hang, c')
    end.

(** An assignment to attributes of the object. *)
Definition modify (f : St -> St) : Prog unit := fun c => (Ret tt, f c).

(** [try: body finally: fin].  The [finally] block runs when the body
    returns and when it raises; an exception of the [finally] block
    replaces the one of the body.  A body that never resumes never reaches
    it. *)
Definition try_finally {A} (body : Prog A) (fin : Prog unit) : Prog A :=
  fun c =>
    match body c with
    | (Ret a, c') =>
        match fin c' with
        | (Ret _, c'') => (Ret a, c'')
        | (Exc e, c'') => (Exc e, c'')
        | (Hang, c'') => (Hang, c'')
        end
    | (Exc e, c') =>
        match fin c' with
        | (Ret _, c'') => (Exc e, c'')
        | (Exc e', c'') => (Exc e', c'')
        | (Hang, c'') => (Hang, c'')
        end
    | (Hang, c') => (Hang, c')
    end.

(** [try: body except Exception: handler] *)
Definition try_except (body : Prog unit) (handler : Prog unit) : Prog unit :=
  fun c =>
    match body c with
    | (Exc _, c') => handler c'
    | r => r
    end.

(** [async with lock: body] as seen by a task that runs alone: acquiring a
    held [asyncio.Lock] never resumes; otherwise the lock is held for the
    body and released on every way out of it. *)
Definition with_asyncio_lock (locked : St -> bool)
    (set_locked : bool -> St -> St) {A} (body : Prog A) : Prog A :=
  fun c =>
    if locked c then (Hang, c)
    else try_finally body (modify (set_locked false)) (set_locked true c).

(** Calling an [async def] method without [await] only builds a coroutine
    object; its body does not run. *)
Definition call_without_await {A} (coroutine : Prog A) : Prog unit := ret tt.

(** A state property kept by a piece of code, however it ends. *)
Definition preserves (P : St -> Prop) {A} (m : Prog A) : Prop :=
  forall c, P c -> P (snd (m c)).
End Prog.
Arguments Prog St A : clear implicits.

Notation "x <- m ;; k" := (bind m (fun x => k))
  (at level 100, m at next level, right associativity).
Notation "m ;;; k" := (bind m (fun _ => k))
  (at level 100, right associativity).

(** * The terminal conductor ([conductor.py]) *)
Module Conductor.

(** ** The rendering engine [rich.progress.Progress] (environment)

    Only what the conductor drives is kept: whether the live display runs,
    the table of tasks and the counter that hands out task ids.  Amounts are
    Python floats in the source; they are rationals here and no property
    below depends on their arithmetic. *)
Record Task : Type := mkTask {
  description : string;
  total : option Q;        (* [None]: the engine's default total *)
  completed : Q;
  started : bool;          (* [False] when added with [start=False] *)
}.

Record Progress : Type := mkProgress {
  live : bool;
  tasks : gmap nat Task;
  task_index : nat;
}.

(** [Progress()] *)
Definition Progress_new : Progress :=
  {| live := false; tasks := ∅; task_index := 0 |}.

(** [Progress.start()] and [Progress.stop()] *)
Definition Progress_start (p : Progress) : Progress :=
  {| live := true; tasks := tasks p; task_index := task_index p |}.

Definition Progress_stop (p : Progress) : Progress :=
  {| live := false; tasks := tasks p; task_index := task_index p |}.

(** [Progress.add_task(description, start=..., total=...)]: the new task gets
    the next id, which is returned. *)
Definition Progress_add_task (d : string) (start : bool) (tot : option Q)
    (p : Progress) : nat * Progress :=
  (task_index p,
   {| live := live p;
      tasks := <[task_index p := mkTask d tot 0%Q start]> (tasks p);
      task_index := S (task_index p) |}).

(** [Progress.advance(task_id, advance=amount)]: [KeyError] for an unknown
    id. *)
Definition Progress_advance (id : nat) (amount : Q) (p : Progress)
    : Outcome unit * Progress :=
  match tasks p !! id with
  | Some t =>
      (Ret tt,
       {| live := live p;
          tasks := <[id := mkTask (description t) (total t)
                             (completed t + amount)%Q (started t)]> (tasks p);
          task_index := task_index p |})
  | None => (Exc (KeyError id), p)
  end.

(** [Progress.remove_task(task_id)]: [del self._tasks[task_id]], hence
    [KeyError] for an unknown id. *)
Definition Progress_remove_task (id : nat) (p : Progress)
    : Outcome unit * Progress :=
  match tasks p !! id with
  | Some _ =>
      (Ret tt,
       {| live := live p; tasks := delete id (tasks p);
          task_index := task_index p |})
  | None => (Exc (KeyError id), p)
  end.

(** ** The conductor object and the terminal *)

(** The four attributes set by [TerminalConductor.__init__], and the lines
    that [rich.print] has written to the terminal so far (oldest first).  The
    last field is not an attribute of the object: it is the part of the
    outside world that the properties speak about.  [_lock] is [true] while
    the [asyncio.Lock] is held. *)
Record TerminalConductor : Type := mkConductor {
  _stopped : bool;
  _lock : bool;
  _progress : Progress;
  _lines : list string;
  terminal : list string;
}.

Definition set_stopped (b : bool) (c : TerminalConductor) :=
  mkConductor b (_lock c) (_progress c) (_lines c) (terminal c).
Definition set_lock (b : bool) (c : TerminalConductor) :=
  mkConductor (_stopped c) b (_progress c) (_lines c) (terminal c).
Definition set_progress (p : Progress) (c : TerminalConductor) :=
  mkConductor (_stopped c) (_lock c) p (_lines c) (terminal c).
Definition set_lines (l : list string) (c : TerminalConductor) :=
  mkConductor (_stopped c) (_lock c) (_progress c) l (terminal c).
Definition set_terminal (t : list string) (c : TerminalConductor) :=
  mkConductor (_stopped c) (_lock c) (_progress c) (_lines c) t.

(** Code run by a task against the conductor. *)
Definition M : Type -> Type := Prog TerminalConductor.

(** [async with self._lock: body] *)
Definition with_lock {A} (body : M A) : M A :=
  with_asyncio_lock _lock set_lock body.

(** [rich.print(line)] *)
Definition rich_print (line : string) : M unit :=
  modify (fun c => set_terminal (terminal c ++ [line]) c).

(** [TerminalConductor.__init__] on a terminal that already shows [t]. *)
Definition __init__ (t : list string) : TerminalConductor :=
  {| _stopped := false; _lock := false; _progress := Progress_new;
     _lines := []; terminal := t |}.

(** [for line in lines: rich.print(line)] *)
Fixpoint print_all (lines : list string) : M unit :=
  match lines with
  | [] => ret tt
  | line :: rest => rich_print line ;;; print_all rest
  end.

(** [TerminalConductor._start] *)
Definition _start : M unit :=
  fun c =>
    (print_all (_lines c) ;;;
     modify (set_lines []) ;;;
     modify (fun c => set_progress (Progress_start (_progress c)) c)) c.

(** [TerminalConductor._stop] *)
Definition _stop : M unit :=
  modify (fun c => set_progress (Progress_stop (_progress c)) c) ;;;
  modify (set_stopped true).

(** [TerminalConductor.start] and [TerminalConductor.stop] (awaited) *)
Definition start : M unit := with_lock _start.
Definition stop : M unit := with_lock _stop.

(** [TerminalConductor.print] *)
Definition print (line : string) : M unit :=
  fun c =>
    if _stopped c then modify (set_lines (_lines c ++ [line])) c
    else rich_print line c.

(** [TerminalConductor.exclusive_output], applied to the body of the
    [async with] block.  The source writes [self.stop()] and [self.start()]:
    both are [async def] methods and neither call is awaited. *)
Definition exclusive_output {A} (body : M A) : M A :=
  with_lock
    (call_without_await stop ;;;
     try_finally body (call_without_await start)).

(** [ProgressBar]: the engine is the conductor's, so the handle is the task
    id. *)
Record ProgressBar : Type := mkBar { _taskid : nat }.

(** [ProgressBar.advance] *)
Definition advance (bar : ProgressBar) (amount : Q) : M unit :=
  fun c =>
    let (r, p) := Progress_advance (_taskid bar) amount (_progress c) in
    (r, set_progress p c).

(** The part of [progress_bar] before the [yield]. *)
Definition progress_bar_enter (d : string) (tot : option Q) : M ProgressBar :=
  fun c =>
    let (taskid, p) :=
      match tot with
      | None => Progress_add_task d false None (_progress c)
      | Some t => Progress_add_task d true (Some t) (_progress c)
      end in
    (Ret (mkBar taskid), set_progress p c).

(** The [finally] block of [progress_bar]. *)
Definition progress_bar_exit (bar : ProgressBar) : M unit :=
  fun c =>
    let (r, p) := Progress_remove_task (_taskid bar) (_progress c) in
    (r, set_progress p c).

(** [TerminalConductor.progress_bar], applied to the body of the [with]
    block, which receives the handle. *)
Definition progress_bar {A} (d : string) (tot : option Q)
    (body : ProgressBar -> M A) : M A :=
  bar <- progress_bar_enter d tot ;;
  try_finally (body bar) (progress_bar_exit bar).

(** ** Caller code

    What a single task may do with a conductor: any sequence of the public
    operations, with the two scoped operations nested at will, [raise], and
    [try: ... except Exception: pass] around a block.  The body of a
    progress-bar scope is a function of the handle it is given. *)
Inductive Script : Type :=
| SReturn
| SRaise (e : Exn)
| SStart (k : Script)
| SStop (k : Script)
| SPrint (line : string) (k : Script)
| SAdvance (bar : ProgressBar) (amount : Q) (k : Script)
| SExclusive (body : Script) (k : Script)
| SBar (d : string) (tot : option Q) (body : ProgressBar -> Script) (k : Script)
| SCatch (body : Script) (k : Script).

(** [try: body except Exception: pass] *)
Definition catch (body : M unit) : M unit := try_except body (ret tt).

Fixpoint run_script (s : Script) : M unit :=
  match s with
  | SReturn => ret tt
  | SRaise e => raise e
  | SStart k => start ;;; run_script k
  | SStop k => stop ;;; run_script k
  | SPrint line k => print line ;;; run_script k
  | SAdvance bar amount k => advance bar amount ;;; run_script k
  | SExclusive body k => exclusive_output (run_script body) ;;; run_script k
  | SBar d tot body k =>
      progress_bar d tot (fun bar => run_script (body bar)) ;;; run_script k
  | SCatch body k => catch (run_script body) ;;; run_script k
  end.

(** [conductor.print(l)] for each [l] of [lines], in order. *)
Fixpoint prints (lines : list string) : Script :=
  match lines with
  | [] => SReturn
  | l :: rest => SPrint l (prints rest)
  end.

(** The stopped flag is set. *)
Definition stopped_set (c : TerminalConductor) : Prop := _stopped c = true.


End Conductor.

(** * The HTTP crawler ([http_crawler.py]) *)
Module HttpCrawler.

(** ** The crawler object and its collaborators *)

(** [aiohttp.CookieJar]: the cookies it holds. *)
Definition CookieJar : Type := list string.

(** [aiohttp.ClientSession(headers=..., cookie_jar=...)].  The session uses
    the very jar that [_current_cookie_jar] refers to, so only its headers
    are kept here. *)
Record ClientSession : Type := mkSession {
  headers : list (string * string);
}.

(** What the crawler does to the outside world, in the order it happens:
    calls of [_authenticate], of the jar's [load] and [save] and of the three
    logging functions, with their arguments. *)
Inductive Event : Type :=
| EvAuthenticate
| EvLoad (path : string)
| EvSave (path : string) (jar : CookieJar)
| LogExplainTopic (msg : string)
| LogExplain (msg : string)
| LogWarn (msg : string).

Definition is_authenticate (ev : Event) : bool :=
  match ev with EvAuthenticate => true | _ => false end.

Definition is_save (ev : Event) : bool :=
  match ev with EvSave _ _ => true | _ => false end.

Fixpoint count_if {A} (p : A -> bool) (l : list A) : nat :=
  match l with
  | [] => 0
  | x :: rest => (if p x then 1 else 0) + count_if p rest
  end.

(** The attributes set by [HttpCrawler.__init__] and [run] that the two
    methods under study read or write, and the trace of events.  The
    authentication id is a Python [int], hence unbounded;
    [_authentication_lock] is [true] while the [asyncio.Lock] is held;
    [session] is [None] while the attribute does not exist. *)
Record HttpCrawler : Type := mkCrawler {
  _cookie_jar_path : string;
  _authentication_id : Z;
  _authentication_lock : bool;
  _current_cookie_jar : option CookieJar;
  session : option ClientSession;
  trace : list Event;
}.

Definition set_authentication_id (n : Z) (c : HttpCrawler) :=
  mkCrawler (_cookie_jar_path c) n (_authentication_lock c)
            (_current_cookie_jar c) (session c) (trace c).
Definition set_authentication_lock (b : bool) (c : HttpCrawler) :=
  mkCrawler (_cookie_jar_path c) (_authentication_id c) b
            (_current_cookie_jar c) (session c) (trace c).
Definition set_current_cookie_jar (j : option CookieJar) (c : HttpCrawler) :=
  mkCrawler (_cookie_jar_path c) (_authentication_id c)
            (_authentication_lock c) j (session c) (trace c).
Definition set_session (s : option ClientSession) (c : HttpCrawler) :=
  mkCrawler (_cookie_jar_path c) (_authentication_id c)
            (_authentication_lock c) (_current_cookie_jar c) s (trace c).
Definition emit (ev : Event) (c : HttpCrawler) :=
  mkCrawler (_cookie_jar_path c) (_authentication_id c)
            (_authentication_lock c) (_current_cookie_jar c) (session c)
            (trace c ++ [ev]).

(** How many times [_authenticate] and the jar's [save] have been called. *)
Definition auth_calls (c : HttpCrawler) : nat :=
  count_if is_authenticate (trace c).
Definition save_calls (c : HttpCrawler) : nat :=
  count_if is_save (trace c).

(** Everything the two methods use and the file does not define:
    - [NAME], [VERSION]: the constants of [.version];
    - [fmt_real_path]: the formatter of [.utils];
    - [_authenticate_impl k jar]: what the [_authenticate] of the concrete
      crawler class does on its [k]-th call (counting from 0) when the
      cookie jar is [jar]: the exception it raises, if any, and the jar it
      leaves behind;
    - [jar_truth]: the truth value of a cookie jar object, which
      [if not self._current_cookie_jar] asks for;
    - [jar_load path]: the cookies read by [CookieJar.load], or its
      exception;
    - [jar_save k path jar]: the exception, if any, of the [k]-th call of
      [CookieJar.save];
    - [Crawler_run]: [Crawler.run], called as [super().run()].
    Exceptions are instances of [Exception]. *)
Record Externals : Type := mkExternals {
  NAME : string;
  VERSION : string;
  fmt_real_path : string -> string;
  _authenticate_impl : nat -> option CookieJar -> option Exn * option CookieJar;
  jar_truth : CookieJar -> bool;
  jar_load : string -> Exn + CookieJar;
  jar_save : nat -> string -> CookieJar -> option Exn;
  Crawler_run : Prog HttpCrawler unit;
}.

(** Code run by a task against the crawler. *)
Definition M : Type -> Type := Prog HttpCrawler.

(** [HttpCrawler.__init__], given the resolved path of the cookie file. *)
Definition __init__ (cookie_jar_path : string) : HttpCrawler :=
  {| _cookie_jar_path := cookie_jar_path;
     _authentication_id := 0;
     _authentication_lock := false;
     _current_cookie_jar := None;
     session := None;
     trace := [] |}.

(** [async with self._authentication_lock: body] *)
Definition with_lock {A} (body : M A) : M A :=
  with_asyncio_lock _authentication_lock set_authentication_lock body.

(** ** The methods, as run by a task that nothing interleaves with *)

(** [HttpCrawler.prepare_request] *)
Definition prepare_request : M Z :=
  with_lock (fun c => (Ret (_authentication_id c), c)).

(** [HttpCrawler._authenticate] of the class itself: it always raises. *)
Definition _authenticate_base (k : nat) (jar : option CookieJar)
    : option Exn * option CookieJar :=
  (Some (RuntimeError
     "_authenticate() was called but crawler doesn't provide an implementation"),
   jar).

(** [await self._authenticate()], dispatched to the concrete class. *)
Definition _authenticate (X : Externals) : M unit :=
  fun c =>
    let (r, jar) := _authenticate_impl X (auth_calls c) (_current_cookie_jar c) in
    (match r with Some e => Exc e | None => Ret tt end,
     set_current_cookie_jar jar (emit EvAuthenticate c)).

(** The truth value Python gives [self._current_cookie_jar]. *)
Definition truthy (X : Externals) (j : option CookieJar) : bool :=
  match j with
  | None => false
  | Some jar => jar_truth X jar
  end.

(** [self._current_cookie_jar.save(self._cookie_jar_path)] *)
Definition jar_save_call (X : Externals) : M unit :=
  fun c =>
    match _current_cookie_jar c with
    | Some jar =>
        (match jar_save X (save_calls c) (_cookie_jar_path c) jar with
         | Some e => Exc e
         | None => Ret tt
         end,
         emit (EvSave (_cookie_jar_path c) jar) c)
    | None => (Exc (OtherError "AttributeError" "save"), c)
    end.

(** [HttpCrawler._save_cookies] *)
Definition _save_cookies (X : Externals) : M unit :=
  modify (emit (LogExplainTopic "Saving cookies")) ;;;
  fun c =>
    if negb (truthy X (_current_cookie_jar c)) then
      modify (emit (LogExplain "No cookie jar, save aborted")) c
    else
      try_except
        (jar_save_call X ;;;
         modify (emit (LogExplain
           ("Cookies saved to " +:+ fmt_real_path X (_cookie_jar_path c)))))
        (modify (emit (LogWarn
           ("Failed to save cookies to " +:+ fmt_real_path X (_cookie_jar_path c)))))
        c.

(** The statements of [authenticate] after the comparison of the ids:
    [await self._authenticate()], the increment, [await self._save_cookies()]. *)
Definition authenticate_refresh (X : Externals) : M unit :=
  _authenticate X ;;;
  modify (fun c => set_authentication_id (_authentication_id c + 1) c) ;;;
  _save_cookies X.

(** [HttpCrawler.authenticate] *)
Definition authenticate (X : Externals) (current_id : Z) : M unit :=
  with_lock
    (fun c =>
       if bool_decide (current_id <> _authentication_id c) then (Ret tt, c)
       else authenticate_refresh X c).

(** [self._current_cookie_jar.load(self._cookie_jar_path)] *)
Definition jar_load_call (X : Externals) : M unit :=
  fun c =>
    match _current_cookie_jar c with
    | Some _ =>
        match jar_load X (_cookie_jar_path c) with
        | inl e => (Exc e, emit (EvLoad (_cookie_jar_path c)) c)
        | inr cookies =>
            (Ret tt,
             set_current_cookie_jar (Some cookies)
               (emit (EvLoad (_cookie_jar_path c)) c))
        end
    | None => (Exc (OtherError "AttributeError" "load"), c)
    end.

(** [del self.session] *)
Definition del_session : M unit :=
  fun c =>
    match session c with
    | Some _ => (Ret tt, set_session None c)
    | None => (Exc (OtherError "AttributeError" "session"), c)
    end.

(** [HttpCrawler.run] *)
Definition run (X : Externals) : M unit :=
  modify (set_current_cookie_jar (Some [])) ;;;
  try_except (jar_load_call X) (ret tt) ;;;
  (modify (set_session
     (Some (mkSession [("User-Agent", NAME X +:+ "/" +:+ VERSION X)]))) ;;;
   try_finally (Crawler_run X) del_session) ;;;
  _save_cookies X.

(** ** Interleaved tasks

    The crawl runs many asyncio tasks on one thread.  A task gives up
    control only where it awaits something that is not ready: the
    authentication lock while another task holds it, and
    [self._authenticate()], which talks to the network.  Between two such
    points its code runs without interruption.  [_save_cookies] contains no
    such point.

    Each task is at one of the following places. *)
Inductive Pc : Type :=
| PrepareCalled                   (* in [prepare_request], lock not yet acquired *)
| PrepareReturned (id : Z)        (* [prepare_request] returned [id] *)
| AuthCalled (current_id : Z)     (* in [authenticate], lock not yet acquired *)
| AuthAwaiting (current_id : Z)   (* holds the lock, awaits [_authenticate()] *)
| AuthEnded (r : Outcome unit).   (* [authenticate] returned or raised *)

(** One uninterrupted stretch of a task, from where it is to its next
    suspension point or to its end; [None] when the task cannot run because
    the lock it waits for is held.  Any waiting task may get a free lock;
    the first-come-first-served order of [asyncio.Lock] is one of the
    orders this allows. *)
Definition step_task (X : Externals) (pc : Pc) (c : HttpCrawler)
    : option (Pc * HttpCrawler) :=
  match pc with
  | PrepareCalled =>
      if _authentication_lock c then None
      else Some (PrepareReturned (_authentication_id c),
                 set_authentication_lock false (set_authentication_lock true c))
  | AuthCalled current_id =>
      if _authentication_lock c then None
      else if bool_decide (current_id <> _authentication_id c)
      then Some (AuthEnded (Ret tt),
                 set_authentication_lock false (set_authentication_lock true c))
      else Some (AuthAwaiting current_id, set_authentication_lock true c)
  | AuthAwaiting current_id =>
      let (r, c') := authenticate_refresh X c in
      Some (AuthEnded r, set_authentication_lock false c')
  | PrepareReturned _ | AuthEnded _ => None
  end.

Record System : Type := mkSystem {
  crawler : HttpCrawler;
  pool : list Pc;
}.

(** The scheduler resumes task [i]. *)
Definition step (X : Externals) (i : nat) (s : System) : option System :=
  match pool s !! i with
  | Some pc =>
      match step_task X pc (crawler s) with
      | Some (pc', c') => Some (mkSystem c' (<[i := pc']> (pool s)))
      | None => None
      end
  | None => None
  end.

(** The scheduler resumes the tasks named by [sched], one after the other;
    naming a task that cannot run changes nothing. *)
Fixpoint schedule (X : Externals) (sched : list nat) (s : System) : System :=
  match sched with
  | [] => s
  | i :: rest =>
      match step X i s with
      | Some s' => schedule X rest s'
      | None => schedule X rest s
      end
  end.

Definition ended (pc : Pc) : bool :=
  match pc with
  | PrepareReturned _ | AuthEnded _ => true
  | _ => false
  end.

Definition called (pc : Pc) : bool :=
  match pc with
  | PrepareCalled | AuthCalled _ => true
  | _ => false
  end.

Definition auth_ended (pc : Pc) : bool :=
  match pc with AuthEnded _ => true | _ => false end.

Definition all_ended (s : System) : bool := forallb ended (pool s).

(** How many more times a task can be resumed, at most. *)
Definition weight (pc : Pc) : nat :=
  match pc with
  | PrepareCalled => 1
  | AuthCalled _ => 2
  | AuthAwaiting _ => 1
  | PrepareReturned _ | AuthEnded _ => 0
  end.

Definition total_weight (s : System) : nat :=
  foldr (fun pc n => weight pc + n) 0 (pool s).

(** ** What the methods amount to

    Closed forms used to state what the methods do. *)

(** The crawler with further events in its trace. *)
Definition add_events (evs : list Event) (c : HttpCrawler) : HttpCrawler :=
  mkCrawler (_cookie_jar_path c) (_authentication_id c)
            (_authentication_lock c) (_current_cookie_jar c) (session c)
            (trace c ++ evs).

(** The events of one call of [_save_cookies]. *)
Definition save_cookies_events (X : Externals) (c : HttpCrawler) : list Event :=
  LogExplainTopic "Saving cookies" ::
  match _current_cookie_jar c with
  | Some jar =>
      if jar_truth X jar then
        [EvSave (_cookie_jar_path c) jar;
         match jar_save X (save_calls c) (_cookie_jar_path c) jar with
         | None =>
             LogExplain
               ("Cookies saved to " +:+ fmt_real_path X (_cookie_jar_path c))
         | Some _ =>
             LogWarn
               ("Failed to save cookies to "
                +:+ fmt_real_path X (_cookie_jar_path c))
         end]
      else [LogExplain "No cookie jar, save aborted"]
  | None => [LogExplain "No cookie jar, save aborted"]
  end.

(** The crawler after [_authenticate()] returned and the id was
    incremented, before the cookies are saved. *)
Definition refreshed (X : Externals) (c : HttpCrawler) : HttpCrawler :=
  set_authentication_id (_authentication_id c + 1)
    (set_current_cookie_jar
       (snd (_authenticate_impl X (auth_calls c) (_current_cookie_jar c)))
       (emit EvAuthenticate c)).

(** The crawler at the moment [run] calls [super().run()]: a new jar has
    been made, the load has been tried, and the session has been set. *)
Definition session_started (X : Externals) (c : HttpCrawler) : HttpCrawler :=
  set_session
    (Some (mkSession [("User-Agent", NAME X +:+ "/" +:+ VERSION X)]))
    match jar_load X (_cookie_jar_path c) with
    | inl _ =>
        emit (EvLoad (_cookie_jar_path c)) (set_current_cookie_jar (Some []) c)
    | inr cookies =>
        set_current_cookie_jar (Some cookies)
          (emit (EvLoad (_cookie_jar_path c))
                (set_current_cookie_jar (Some []) c))
    end.

(** ** Example collaborators

    [working_site]: the login succeeds and leaves a session cookie, the
    cookie file does not exist yet, saving works, a jar is true when it
    holds a cookie, and the crawl does nothing.  [broken_disk] differs in
    that saving fails; [broken_login] in that the class does not override
    [_authenticate]; [broken_crawl] in that a cookie file exists and the
    crawl raises. *)
Definition working_site : Externals :=
  {| NAME := "PFERD"; VERSION := "3.0";
     fmt_real_path := fun p => p;
     _authenticate_impl :=
       fun _ jar => (None, option_map (fun j => j ++ ["session=1"]) jar);
     jar_truth := fun j => match j with [] => false | _ => true end;
     jar_load := fun p => inl (OtherError "FileNotFoundError" p);
     jar_save := fun _ _ _ => None;
     Crawler_run := ret tt |}.

Definition broken_disk : Externals :=
  {| NAME := "PFERD"; VERSION := "3.0";
     fmt_real_path := fun p => p;
     _authenticate_impl :=
       fun _ jar => (None, option_map (fun j => j ++ ["session=1"]) jar);
     jar_truth := fun j => match j with [] => false | _ => true end;
     jar_load := fun p => inl (OtherError "FileNotFoundError" p);
     jar_save := fun _ p _ => Some (OtherError "PermissionError" p);
     Crawler_run := ret tt |}.

Definition broken_login : Externals :=
  {| NAME := "PFERD"; VERSION := "3.0";
     fmt_real_path := fun p => p;
     _authenticate_impl := _authenticate_base;
     jar_truth := fun j => match j with [] => false | _ => true end;
     jar_load := fun p => inl (OtherError "FileNotFoundError" p);
     jar_save := fun _ _ _ => None;
     Crawler_run := ret tt |}.

Definition broken_crawl : Externals :=
  {| NAME := "PFERD"; VERSION := "3.0";
     fmt_real_path := fun p => p;
     _authenticate_impl :=
       fun _ jar => (None, option_map (fun j => j ++ ["session=1"]) jar);
     jar_truth := fun j => match j with [] => false | _ => true end;
     jar_load := fun _ => inr ["session=0"];
     jar_save := fun _ _ _ => None;
     Crawler_run := raise (OtherError "CrawlError" "network down") |}.

(** ** Invariants of the interleaved tasks *)

(** While the lock is held, some task is inside [authenticate], awaiting
    [_authenticate()]. *)
Definition lock_has_holder (s : System) : Prop :=
  _authentication_lock (crawler s) = true ->
  exists i current_id, pool s !! i = Some (AuthAwaiting current_id).

(** With [id0] the authentication id at the beginning: the id never went
    down, every value returned by [prepare_request] lies between [id0] and
    the present id, and the id is still [id0] unless some call of
    [authenticate] has ended. *)
Definition ids_seen (id0 : Z) (s : System) : Prop :=
  (id0 <= _authentication_id (crawler s))%Z /\
  (forall i v, pool s !! i = Some (PrepareReturned v) ->
               (id0 <= v <= _authentication_id (crawler s))%Z) /\
  (_authentication_id (crawler s) = id0 \/
   exists i r, pool s !! i = Some (AuthEnded r)).

(** The crawler once the one authentication of a storm of
    [authenticate(t)] calls has gone through: the task that held the lock
    has authenticated, incremented the id, saved the cookies and released
    the lock. *)
Definition after_refresh (X : Externals) (c0 : HttpCrawler) : HttpCrawler :=
  set_authentication_lock false
    (add_events
       (save_cookies_events X (refreshed X (set_authentication_lock true c0)))
       (refreshed X (set_authentication_lock true c0))).

(** Where [N] tasks that all called [authenticate(t)] on the crawler [c0]
    can be: all still waiting for the lock; one of them in flight and the
    others waiting; or the refresh done and every task either still waiting
    or returned. *)
Inductive storm (X : Externals) (c0 : HttpCrawler) (N : nat) (t : Z)
    : System -> Prop :=
| storm_waiting :
    storm X c0 N t (mkSystem c0 (replicate N (AuthCalled t)))
| storm_in_flight (i : nat) :
    i < N ->
    storm X c0 N t
      (mkSystem (set_authentication_lock true c0)
                (<[i := AuthAwaiting t]> (replicate N (AuthCalled t))))
| storm_refreshed (tasks : list Pc) :
    length tasks = N ->
    Forall (fun pc => pc = AuthCalled t \/ pc = AuthEnded (Ret tt)) tasks ->
    storm X c0 N t (mkSystem (after_refresh X c0) tasks).

End HttpCrawler.

(** * Further notions about the conductor *)
Module ConductorLaws.
Import Conductor.

(** Everything printed through the conductor that has not been lost, in the
    order of the [print] calls: what is on the terminal, then what waits in
    the buffer. *)
Definition printed (c : TerminalConductor) : list string :=
  terminal c ++ _lines c.

(** Nothing waits in the buffer of a conductor that is not stopped. *)
Definition flushed (c : TerminalConductor) : Prop :=
  _stopped c = false -> _lines c = [].

(** What code that follows an operation contributes: nothing unless the
    operation returned. *)
Definition and_then {A} (r : Outcome A * TerminalConductor)
    (rest : TerminalConductor -> list string) : list string :=
  match r with
  | (Ret _, c') => rest c'
  | _ => []
  end.

(** The lines that a script run from [c] passes to [print], in the order of
    the calls: the arguments of the [print]s it reaches.  What follows an
    operation is reached when the operation returns; the body of a scoped
    operation is reached when the scope is entered, and the body of a
    [try] always. *)
Fixpoint print_calls (s : Script) (c : TerminalConductor) : list string :=
  match s with
  | SReturn => []
  | SRaise _ => []
  | SStart k => and_then (start c) (print_calls k)
  | SStop k => and_then (stop c) (print_calls k)
  | SPrint line k => line :: and_then (print line c) (print_calls k)
  | SAdvance bar amount k => and_then (advance bar amount c) (print_calls k)
  | SExclusive body k =>
      (if _lock c then [] else print_calls body (set_lock true c))
      ++ and_then (exclusive_output (run_script body) c) (print_calls k)
  | SBar d tot body k =>
      and_then (progress_bar_enter d tot c)
               (print_calls (body (mkBar (task_index (_progress c)))))
      ++ and_then (progress_bar d tot (fun bar => run_script (body bar)) c)
                  (print_calls k)
  | SCatch body k =>
      print_calls body c
      ++ and_then (catch (run_script body) c) (print_calls k)
  end.

(** The terminal, the buffer and the stopped flag are as they were. *)
Definition same_output (c c' : TerminalConductor) : Prop :=
  terminal c' = terminal c /\ _lines c' = _lines c /\
  _stopped c' = _stopped c.

(** A relation between the state in which a piece of code starts and the
    state in which it ends, when it ends (by returning or by raising). *)
Definition ends_in {St A} (R : St -> St -> Prop) (m : Prog St A) : Prop :=
  forall c, is_hang (fst (m c)) = false -> R c (snd (m c)).

(** The lock is as it was. *)
Definition same_lock (c c' : TerminalConductor) : Prop := _lock c' = _lock c.

(** Every id in the task table was handed out by the counter. *)
Definition ids_fresh (p : Progress) : Prop :=
  forall id, is_Some (tasks p !! id) -> id < task_index p.

(** From a task table with handed-out ids only: the table has the same ids
    as before, again handed-out ones only, and the counter did not go
    back. *)
Definition same_tasks (c c' : TerminalConductor) : Prop :=
  ids_fresh (_progress c) ->
  ids_fresh (_progress c') /\
  dom (tasks (_progress c')) = dom (tasks (_progress c)) /\
  task_index (_progress c) <= task_index (_progress c').

End ConductorLaws.

(** * Further notions about the crawler's tasks *)
Module HttpCrawlerLaws.
Import HttpCrawler.

(** The task holds the lock and awaits [_authenticate()]. *)
Definition in_flight (pc : Pc) : bool :=
  match pc with AuthAwaiting _ => true | _ => false end.

(** The task is in [authenticate(v)] and has not ended. *)
Definition observes (v : Z) (pc : Pc) : bool :=
  match pc with
  | AuthCalled current_id | AuthAwaiting current_id => bool_decide (current_id = v)
  | _ => false
  end.

(** The lock is held exactly while one task is in flight, no two tasks are
    in flight together, and the task in flight was called with the id the
    crawler has. *)
Definition one_in_flight (s : System) : Prop :=
  count_if in_flight (pool s)
    = (if _authentication_lock (crawler s) then 1 else 0) /\
  forall i current_id,
    pool s !! i = Some (AuthAwaiting current_id) ->
    current_id = _authentication_id (crawler s).

(** How many times [_authenticate] has been called.  The trace gets a call
    of [_authenticate] in the step in which the call ends; a task that
    awaits [_authenticate()] has made a call that the trace does not show
    yet. *)
Definition logins_begun (s : System) : nat :=
  auth_calls (crawler s) + count_if in_flight (pool s).

(** With [c0] the crawler at the beginning: the id has not gone down, it
    has gone up by at most the number of calls of [_authenticate] that have
    ended since, and at most as many of those have ended as calls of
    [authenticate] have. *)
Definition logins_counted (c0 : HttpCrawler) (s : System) : Prop :=
  (_authentication_id c0 <= _authentication_id (crawler s))%Z /\
  (_authentication_id (crawler s) - _authentication_id c0
   <= Z.of_nat (auth_calls (crawler s)) - Z.of_nat (auth_calls c0))%Z /\
  auth_calls (crawler s) <= auth_calls c0 + count_if auth_ended (pool s).

(** Where [N] tasks that all called [authenticate(t)] can be when every
    login fails: waiting, in flight, or ended with an exception; the id is
    still [t] and [_authenticate] has been called once for every task that
    has ended. *)
Definition failing_storm (c0 : HttpCrawler) (N : nat) (t : Z) (s : System)
    : Prop :=
  length (pool s) = N /\
  _authentication_id (crawler s) = t /\
  Forall (fun pc => pc = AuthCalled t \/ pc = AuthAwaiting t \/
                    exists e, pc = AuthEnded (Exc e)) (pool s) /\
  auth_calls (crawler s) = auth_calls c0 + count_if ended (pool s).

End HttpCrawlerLaws.

(** * Utilities ([utils.py]) *)
Module Utils.

(** ** Pure paths *)

(** [pathlib.PurePath]: a pure path is given by its tuple of parts, and two
    pure paths are equal when their parts are (the POSIX flavour; Windows
    compares them up to case). *)
Record PurePath : Type := mkPath { parts : list string }.

#[global] Instance PurePath_eq_dec : EqDecision PurePath.
Proof. solve_decision. Defined.

(** What the functions use of [pathlib] and the file does not define:
    - [PurePath_new args]: the constructor [PurePath], called with the
      strings [args], which it parses in the way of the platform;
    - [anchored p]: the path has a drive or a root;
    - [joinpath p q]: [p.joinpath(q)];
    - [resolve p]: [Path.resolve()], which asks the file system; the
      resolved path or the exception;
    - [path_str p]: [str(p)]. *)
Record Pathlib : Type := mkPathlib {
  PurePath_new : list string -> PurePath;
  anchored : PurePath -> bool;
  joinpath : PurePath -> PurePath -> PurePath;
  resolve : PurePath -> Exn + PurePath;
  path_str : PurePath -> string;
}.

(** [move] *)
Definition move (L : Pathlib) (path : PurePath)
    (from_folders to_folders : list string) : option PurePath :=
  let length := length from_folders in
  if decide (take length (parts path) = from_folders)
  then Some (PurePath_new L (to_folders ++ drop length (parts path)))
  else None.

(** [rename]; [path.parts[:-1]] is all parts but the last, and no part of a
    path that has none. *)
Definition rename (L : Pathlib) (path : PurePath) (to_name : string)
    : PurePath :=
  PurePath_new L (take (length (parts path) - 1) (parts path) ++ [to_name]).

(** [path.parents]: the path cut after its last part, after the one before,
    and so on; down to the anchor for a path that has one, down to the path
    without parts for one that has none. *)
Definition parents (L : Pathlib) (path : PurePath) : list PurePath :=
  let len := if anchored L path then length (parts path) - 1
             else length (parts path) in
  map (fun idx => mkPath (take (length (parts path) - idx - 1) (parts path)))
      (seq 0 len).

(** [resolve_path] *)
Definition resolve_path (L : Pathlib) (directory target_file : PurePath)
    : Outcome PurePath :=
  match resolve L (joinpath L directory target_file) with
  | inl e => Exc e
  | inr absolute_path =>
      if bool_decide (directory ∉ parents L absolute_path)
      then Exc (OtherError "ResolveException"
                  ("Path resolved to file outside folder ("
                   +:+ path_str L absolute_path +:+ ")"))
      else Ret absolute_path
  end.

(** ** Asking yes or no *)

(** The terminal as [input] and [print] see it: the lines that will be
    typed, and what has been written (prompts and printed lines, oldest
    first). *)
Record Console : Type := mkConsole {
  stdin : list string;
  stdout : list string;
}.

(** [input(text)]: writes the prompt and reads a line; [EOFError] when there
    is none. *)
Definition input (text : string) : Prog Console string :=
  fun k =>
    match stdin k with
    | line :: rest => (Ret line, mkConsole rest (stdout k ++ [text]))
    | [] => (Exc (OtherError "EOFError" "EOF when reading a line"),
             mkConsole [] (stdout k ++ [text]))
    end.

(** [print(s)] *)
Definition print (s : string) : Prog Console unit :=
  modify (fun k => mkConsole (stdin k) (stdout k ++ [s])).

Definition wrong_reply : string := "Please reply with 'yes'/'y' or 'no'/'n'.".

(** The prompt text built at the beginning of [prompt_yes_no]. *)
Definition prompt_text (question : string) (default : option bool) : string :=
  let prompt :=
    match default with
    | Some true => "[Y/n]"
    | Some false => "[y/N]"
    | None => "[y/n]"
    end in
  question +:+ " " +:+ prompt +:+ " ".

(** One turn of the [while True] loop of [prompt_yes_no]: the value to
    return, or [None] to go round again.  [strip_lower] is
    [str.strip().lower()]. *)
Definition turn (strip_lower : string -> string) (text : string)
    (default : option bool) : Prog Console (option bool) :=
  line <- input text ;;
  let response := strip_lower line in
  if bool_decide (response ∈ ["yes"; "ye"; "y"]) then ret (Some true)
  else if bool_decide (response ∈ ["no"; "n"]) then ret (Some false)
  else if bool_decide (response = "") && bool_decide (default <> None)
  then ret default
  else print wrong_reply ;;; ret None.

(** The loop, for at most [S turns] turns. *)
Fixpoint prompt_loop (strip_lower : string -> string) (text : string)
    (default : option bool) (turns : nat) : Prog Console bool :=
  r <- turn strip_lower text default ;;
  match r with
  | Some b => ret b
  | None =>
      match turns with
      | 0 => fun k => (Hang, k)
      | S turns' => prompt_loop strip_lower text default turns'
      end
  end.

(** [prompt_yes_no].  Every turn reads a line and [input] raises when none
    is left, so one turn more than there are lines to read is as good as
    [while True]. *)
Definition prompt_yes_no (strip_lower : string -> string) (question : string)
    (default : option bool) : Prog Console bool :=
  fun k =>
    prompt_loop strip_lower (prompt_text question default) default
                (length (stdin k)) k.

(** What a stripped and lowered reply is taken for, if for anything. *)
Definition answer (default : option bool) (response : string) : option bool :=
  if bool_decide (response ∈ ["yes"; "ye"; "y"]) then Some true
  else if bool_decide (response ∈ ["no"; "n"]) then Some false
  else if bool_decide (response = "") then default
  else None.

(** What the loop writes for replies it does not accept. *)
Definition reprompts (text : string) (rejected : list string) : list string :=
  concat (map (fun _ => [text; wrong_reply]) rejected).

(** ** Instances used in examples *)

(** [PurePosixPath] called with ASCII strings: the arguments are read from
    the last one back to the first one that starts with a slash; each is
    split at the slashes, and empty pieces and single dots are dropped. *)
Definition slash : Ascii.ascii := Ascii.ascii_of_nat 47.

Fixpoint split_slash (s : string) : list string :=
  match s with
  | EmptyString => [EmptyString]
  | String a rest =>
      if Ascii.eqb a slash then EmptyString :: split_slash rest
      else match split_slash rest with
           | x :: xs => String a x :: xs
           | [] => [String a EmptyString]
           end
  end.

Fixpoint lstrip_slash (s : string) : string :=
  match s with
  | String a rest => if Ascii.eqb a slash then lstrip_slash rest else s
  | EmptyString => EmptyString
  end.

Definition splitroot (part : string) : string * string :=
  match part with
  | String a _ =>
      if Ascii.eqb a slash then
        let stripped := lstrip_slash part in
        if Nat.eqb (String.length part - String.length stripped) 2
        then ("//", stripped) else ("/", stripped)
      else ("", part)
  | EmptyString => ("", part)
  end.

Definition components (rel : string) : list string :=
  List.filter (fun x => negb (String.eqb x "") && negb (String.eqb x "."))
              (split_slash rel).

Fixpoint parse_back (reversed_args : list string) : list string :=
  match reversed_args with
  | [] => []
  | part :: rest =>
      if String.eqb part "" then parse_back rest
      else
        let (root, rel) := splitroot part in
        if String.eqb root "" then parse_back rest ++ components rel
        else root :: components rel
  end.

Definition posix_parts (args : list string) : list string :=
  parse_back (rev args).

Definition posix : Pathlib :=
  {| PurePath_new := fun args => mkPath (posix_parts args);
     anchored := fun p =>
       match parts p with
       | String a _ :: _ => Ascii.eqb a slash
       | _ => false
       end;
     joinpath := fun p q => mkPath (posix_parts (parts p ++ parts q));
     resolve := fun p => inr p;
     path_str := fun p =>
       match parts p with
       | [] => "."
       | String a root :: rest =>
           if Ascii.eqb a slash
           then String a root +:+ String.concat "/" rest
           else String.concat "/" (parts p)
       | _ => String.concat "/" (parts p)
       end |}.

(** [str.strip().lower()] for ASCII text. *)
Definition is_space (a : Ascii.ascii) : bool :=
  let n := Ascii.nat_of_ascii a in
  (Nat.leb 9 n && Nat.leb n 13) || (Nat.leb 28 n && Nat.leb n 32).

Definition lower (a : Ascii.ascii) : Ascii.ascii :=
  let n := Ascii.nat_of_ascii a in
  if Nat.leb 65 n && Nat.leb n 90 then Ascii.ascii_of_nat (n + 32) else a.

Fixpoint lstrip (l : list Ascii.ascii) : list Ascii.ascii :=
  match l with
  | a :: rest => if is_space a then lstrip rest else l
  | [] => []
  end.

Definition ascii_strip_lower (s : string) : string :=
  String.string_of_list_ascii
    (map lower (rev (lstrip (rev (lstrip (String.list_ascii_of_string s)))))).

End Utils.

(** * Properties of the terminal conductor *)
Module ConductorProps.
Import Conductor.

(** ** Equations of the primitive operations *)

Lemma print_all_spec (lines : list string) (c : TerminalConductor) :
  print_all lines c = (Ret tt, set_terminal (terminal c ++ lines) c).
Proof.
  revert c. induction lines as [|l rest IH]; intros c; simpl.
  - unfold ret, set_terminal. rewrite app_nil_r. by destruct c.
  - unfold bind, rich_print, modify. rewrite IH. simpl.
    by rewrite <- app_assoc.
Qed.

Lemma _start_spec (c : TerminalConductor) :
  _start c =
  (Ret tt, mkConductor (_stopped c) (_lock c) (Progress_start (_progress c))
                       [] (terminal c ++ _lines c)).
Proof. unfold _start, bind. by rewrite print_all_spec. Qed.

Lemma _stop_spec (c : TerminalConductor) :
  _stop c =
  (Ret tt, mkConductor true (_lock c) (Progress_stop (_progress c))
                       (_lines c) (terminal c)).
Proof. reflexivity. Qed.

Lemma start_spec (c : TerminalConductor) :
  _lock c = false ->
  start c =
  (Ret tt, mkConductor (_stopped c) false (Progress_start (_progress c))
                       [] (terminal c ++ _lines c)).
Proof.
  intros Hl. unfold start, with_lock, with_asyncio_lock, try_finally.
  rewrite Hl, _start_spec. reflexivity.
Qed.

Lemma stop_spec (c : TerminalConductor) :
  _lock c = false ->
  stop c =
  (Ret tt, mkConductor true false (Progress_stop (_progress c))
                       (_lines c) (terminal c)).
Proof.
  intros Hl. unfold stop, with_lock, with_asyncio_lock, try_finally.
  by rewrite Hl.
Qed.

Lemma print_stopped (line : string) (c : TerminalConductor) :
  _stopped c = true ->
  print line c = (Ret tt, set_lines (_lines c ++ [line]) c).
Proof. intros Hs. unfold print. by rewrite Hs. Qed.

Lemma print_not_stopped (line : string) (c : TerminalConductor) :
  _stopped c = false ->
  print line c = (Ret tt, set_terminal (terminal c ++ [line]) c).
Proof. intros Hs. unfold print. by rewrite Hs. Qed.

(** ** Properties kept by the combinators *)

Section Preservation.
Variable P : TerminalConductor -> Prop.

Lemma preserves_ret {A} (a : A) : preserves P (ret a).
Proof. by intros c Hc. Qed.

Lemma preserves_raise {A} (e : Exn) : preserves P (raise e : M A).
Proof. by intros c Hc. Qed.

Lemma preserves_bind {A B} (m : M A) (k : A -> M B) :
  preserves P m -> (forall a, preserves P (k a)) -> preserves P (bind m k).
Proof.
  intros Hm Hk c Hc. unfold bind. specialize (Hm c Hc).
  destruct (m c) as [[a| |] c']; simpl in *; auto. by apply Hk.
Qed.

Lemma preserves_try_finally {A} (body : M A) (fin : M unit) :
  preserves P body -> preserves P fin -> preserves P (try_finally body fin).
Proof.
  intros Hb Hf c Hc. unfold try_finally. specialize (Hb c Hc).
  destruct (body c) as [[a| |] c']; simpl in *; auto;
    specialize (Hf c' Hb); by destruct (fin c') as [[[]| |] c''].
Qed.

Lemma preserves_catch (body : M unit) :
  preserves P body -> preserves P (catch body).
Proof.
  intros Hb c Hc. unfold catch, try_except. specialize (Hb c Hc).
  by destruct (body c) as [[[]| |] c'].
Qed.

Hypothesis P_lock : forall b c, P c -> P (set_lock b c).

Lemma preserves_with_lock {A} (body : M A) :
  preserves P body -> preserves P (with_lock body).
Proof.
  intros Hb c Hc. unfold with_lock, with_asyncio_lock.
  destruct (_lock c); [done|].
  apply (preserves_try_finally body); auto.
  intros c' Hc'. by apply P_lock.
Qed.

Lemma preserves_exclusive_output {A} (body : M A) :
  preserves P body -> preserves P (exclusive_output body).
Proof.
  intros Hb. apply preserves_with_lock, preserves_bind.
  - apply preserves_ret.
  - intros _. apply preserves_try_finally; [done|apply preserves_ret].
Qed.

Hypothesis P_progress : forall p c, P c -> P (set_progress p c).

Lemma preserves_advance (bar : ProgressBar) (amount : Q) :
  preserves P (advance bar amount).
Proof.
  intros c Hc. unfold advance.
  destruct (Progress_advance _ _ _) as [r p]. by apply P_progress.
Qed.

Lemma preserves_progress_bar {A} d tot (body : ProgressBar -> M A) :
  (forall bar, preserves P (body bar)) -> preserves P (progress_bar d tot body).
Proof.
  intros Hb. apply preserves_bind.
  - intros c Hc. unfold progress_bar_enter.
    destruct tot; simpl; by apply P_progress.
  - intros bar. apply preserves_try_finally; [done|].
    intros c Hc. unfold progress_bar_exit.
    destruct (Progress_remove_task _ _) as [r p]. by apply P_progress.
Qed.
End Preservation.

Lemma stopped_set_start : preserves stopped_set start.
Proof.
  apply preserves_with_lock; [by intros b c|].
  intros c Hc. by rewrite _start_spec.
Qed.

Lemma stopped_set_stop : preserves stopped_set stop.
Proof. apply preserves_with_lock; [by intros b c|]. by intros c Hc. Qed.

Lemma stopped_set_print line : preserves stopped_set (print line).
Proof. intros c Hc. by rewrite print_stopped. Qed.

Lemma stopped_set_script (s : Script) : preserves stopped_set (run_script s).
Proof.
  induction s as [|e|k IH|k IH|line k IH|bar amount k IH
                  |body IHb k IH|d tot body IHb k IH|body IHb k IH]; simpl.
  - apply preserves_ret.
  - apply preserves_raise.
  - apply preserves_bind; [apply stopped_set_start|done].
  - apply preserves_bind; [apply stopped_set_stop|done].
  - apply preserves_bind; [apply stopped_set_print|done].
  - apply preserves_bind; [|done]. by apply preserves_advance.
  - apply preserves_bind; [|done].
    apply preserves_exclusive_output; [by intros b c|done].
  - apply preserves_bind; [|done]. by apply preserves_progress_bar.
  - apply preserves_bind; [|done]. by apply preserves_catch.
Qed.

(** ** Exclusive output *)

(** C3: the scoped [exclusive_output] operation does not stop live rendering.
    [self.stop()] and [self.start()] are never awaited, so the operation is
    the body run under the lock and nothing else: on a started conductor, a
    line printed inside the scope is written to the terminal at once, while
    the engine is live and the stopped flag is [False]; nothing is buffered. *)
Theorem exclusive_output_never_pauses :
  (forall (A : Type) (body : M A) (c : TerminalConductor),
      exclusive_output body c = with_lock body c) /\
  (let c0 := snd (start (__init__ [])) in
   live (_progress c0) = true /\
   exclusive_output (print "x") c0 =
   (Ret tt,
    {| _stopped := false; _lock := false;
       _progress := Progress_start Progress_new;
       _lines := []; terminal := ["x"] |})).
Proof.
  split; [|by vm_compute].
  intros A body c. unfold exclusive_output, with_lock, with_asyncio_lock.
  destruct (_lock c); [done|].
  unfold try_finally, bind, call_without_await, ret.
  by destruct (body _) as [[a|e|] c'].
Qed.

(** ** Printing before the first start *)

Lemma run_prints_not_stopped (lines : list string) (c : TerminalConductor) :
  _stopped c = false ->
  run_script (prints lines) c = (Ret tt, set_terminal (terminal c ++ lines) c).
Proof.
  revert c. induction lines as [|l rest IH]; intros c Hs; simpl.
  - unfold ret, set_terminal. rewrite app_nil_r. by destruct c.
  - unfold bind. rewrite print_not_stopped by done.
    rewrite IH by done. simpl. by rewrite <- app_assoc.
Qed.

(** C4, as the code has it: a freshly constructed conductor is not stopped.
    Every line passed to [print] before the first [start()] is written to the
    terminal immediately, in the order of the calls, and the buffer stays
    empty; the first [start()] then has nothing to flush, leaves the buffer
    empty and the flag [False], and starts the engine. *)
Theorem fresh_conductor_prints_immediately (t lines : list string) :
  _stopped (__init__ t) = false /\
  run_script (prints lines) (__init__ t) =
    (Ret tt, set_terminal (t ++ lines) (__init__ t)) /\
  start (snd (run_script (prints lines) (__init__ t))) =
    (Ret tt,
     {| _stopped := false; _lock := false;
        _progress := Progress_start Progress_new;
        _lines := []; terminal := t ++ lines |}).
Proof.
  split; [done|]. rewrite run_prints_not_stopped by done.
  split; [done|]. rewrite start_spec by done. simpl. by rewrite app_nil_r.
Qed.

(** C4, as stated, fails: after [print("a")] and [print("b")] on a fresh
    conductor the buffer is empty and both lines are on the terminal already,
    before any [start()]. *)
Lemma fresh_conductor_is_not_paused :
  let c := snd (run_script (prints ["a"; "b"]) (__init__ [])) in
  _stopped (__init__ []) = false /\
  _lines c = [] /\ terminal c = ["a"; "b"] /\
  ~ (_lines c = ["a"; "b"] /\ terminal c = []).
Proof. vm_compute. repeat split; try done. by intros [? ?]. Qed.

(** ** Printing after stop and start *)

Lemma stop_start_print (c : TerminalConductor) (line : string) :
  _lock c = false ->
  run_script (SStop (SStart (SPrint line SReturn))) c =
  (Ret tt,
   {| _stopped := true; _lock := false;
      _progress := Progress_start (Progress_stop (_progress c));
      _lines := [line]; terminal := terminal c ++ _lines c |}).
Proof.
  intros Hl. simpl. unfold bind.
  rewrite stop_spec by done. rewrite start_spec by done.
  by rewrite print_stopped.
Qed.

(** C5: after [stop()] and then [start()] the stopped flag is still [True]:
    [_start] does not reset it.  On a fresh conductor, [print("x")] after
    the two calls appends "x" to the buffer and writes nothing to the
    terminal, although the engine is live again. *)
Theorem print_after_stop_start_is_buffered :
  run_script (SStop (SStart (SPrint "x" SReturn))) (__init__ []) =
  (Ret tt,
   {| _stopped := true; _lock := false;
      _progress := Progress_start Progress_new;
      _lines := ["x"]; terminal := [] |}).
Proof. by vm_compute. Qed.

(** ** Progress bars *)

Lemma progress_bar_enter_spec (d : string) (tot : option Q)
    (c : TerminalConductor) :
  progress_bar_enter d tot c =
  (Ret (mkBar (task_index (_progress c))),
   set_progress
     {| live := live (_progress c);
        tasks := <[task_index (_progress c) :=
                     mkTask d tot 0%Q
                            match tot with Some _ => true | None => false end]>
                   (tasks (_progress c));
        task_index := S (task_index (_progress c)) |} c).
Proof. unfold progress_bar_enter. by destruct tot. Qed.

Lemma progress_bar_exit_absent (bar : ProgressBar) (c : TerminalConductor) :
  tasks (_progress (snd (progress_bar_exit bar c))) !! _taskid bar = None.
Proof.
  unfold progress_bar_exit, Progress_remove_task.
  destruct (tasks (_progress c) !! _taskid bar) eqn:E; simpl; [|done].
  apply lookup_delete_eq.
Qed.

Lemma progress_bar_exit_returns (bar : ProgressBar) (c : TerminalConductor) :
  is_hang (fst (progress_bar_exit bar c)) = false.
Proof.
  unfold progress_bar_exit, Progress_remove_task.
  by destruct (tasks (_progress c) !! _taskid bar).
Qed.

Lemma try_finally_hang {A} (body : M A) (fin : M unit) (c : TerminalConductor) :
  (forall c', is_hang (fst (fin c')) = false) ->
  is_hang (fst (try_finally body fin c)) = is_hang (fst (body c)).
Proof.
  intros Hf. unfold try_finally.
  destruct (body c) as [[a|e|] c']; simpl; [| |done];
    specialize (Hf c'); by destruct (fin c') as [[[]|e'|] c''].
Qed.

Lemma try_finally_post {A} (body : M A) (fin : M unit)
    (Q : TerminalConductor -> Prop) (c : TerminalConductor) :
  (forall c', Q (snd (fin c'))) ->
  is_hang (fst (body c)) = false ->
  Q (snd (try_finally body fin c)).
Proof.
  intros Hf Hb. unfold try_finally.
  destruct (body c) as [[a|e|] c']; simpl in *; [| |done];
    specialize (Hf c'); by destruct (fin c') as [[[]|e'|] c''].
Qed.

(** C6: [progress_bar] registers its task under the next task id and hands
    the body a handle on it; whenever the scope is left, by a normal return
    or by an exception of the body, the task is no longer in the task table.
    The scope is left unless the body itself never resumes. *)
Theorem progress_bar_task_released (A : Type) (d : string) (tot : option Q)
    (body : ProgressBar -> M A) (c : TerminalConductor) :
  let id := task_index (_progress c) in
  let entered := snd (progress_bar_enter d tot c) in
  is_Some (tasks (_progress entered) !! id) /\
  is_hang (fst (progress_bar d tot body c)) =
    is_hang (fst (body (mkBar id) entered)) /\
  (is_hang (fst (body (mkBar id) entered)) = false ->
   tasks (_progress (snd (progress_bar d tot body c))) !! id = None) /\
  (forall e c', body (mkBar id) entered = (Exc e, c') ->
                exists e', fst (progress_bar d tot body c) = Exc e').
Proof.
  intros id entered. subst id entered.
  unfold progress_bar, bind. rewrite progress_bar_enter_spec. simpl.
  repeat split.
  - rewrite lookup_insert_eq. by eexists.
  - apply try_finally_hang. intros c'. apply progress_bar_exit_returns.
  - intros Hb.
    apply (try_finally_post _ _
             (fun c' => tasks (_progress c') !! task_index (_progress c) = None));
      [|done].
    intros c'. apply (progress_bar_exit_absent (mkBar _)).
  - intros e c' Hb. unfold try_finally. rewrite Hb.
    pose proof (progress_bar_exit_returns (mkBar (task_index (_progress c))) c')
      as Hx.
    destruct (progress_bar_exit _ c') as [[[]|e'|] c'']; simpl in *; eauto.
    discriminate.
Qed.

(** A download bar whose body advances once and then fails: the exception
    comes out of the scope and the task is gone. *)
Lemma progress_bar_task_released_witness :
  let body := fun bar : ProgressBar =>
    advance bar (1 # 1) ;;; (raise (OtherError "IOError" "disk full") : M unit) in
  let r := progress_bar "download" (Some (10 # 1)) body (__init__ []) in
  fst r = Exc (OtherError "IOError" "disk full") /\
  tasks (_progress (snd r)) !! 0 = None.
Proof.
  intros body r. split; [reflexivity|].
  destruct (progress_bar_task_released unit "download" (Some (10 # 1)) body
              (__init__ [])) as (_ & _ & Hgone & _).
  exact (Hgone eq_refl).
Defined.







(** ** The stopped flag *)

(** C10: the stopped flag is monotone.  From a conductor whose flag is set,
    whatever sequence of operations a caller runs ([start], [stop], [print],
    [advance], the two scoped operations, nested at will), the flag is still
    set afterwards, and a further [print] appends its line to the buffer
    and leaves the terminal alone.  [stop()] sets the flag, and [start()]
    flushes and clears the buffer without clearing the flag. *)
Theorem stopped_flag_monotone (c : TerminalConductor) (s : Script)
    (line : string) :
  _stopped c = true ->
  let c' := snd (run_script s c) in
  _stopped c' = true /\
  print line c' = (Ret tt, set_lines (_lines c' ++ [line]) c') /\
  terminal (snd (print line c')) = terminal c' /\
  (forall c0, _lock c0 = false -> _stopped (snd (stop c0)) = true) /\
  (_lock c = false ->
   start c = (Ret tt, mkConductor true false (Progress_start (_progress c))
                                  [] (terminal c ++ _lines c))).
Proof.
  intros Hs c'.
  assert (Hs' : _stopped c' = true) by (by apply stopped_set_script).
  split; [done|]. rewrite print_stopped by done.
  repeat split.
  - intros c0 Hl. by rewrite stop_spec.
  - intros Hl. rewrite start_spec by done. by rewrite Hs.
Qed.

Lemma stopped_flag_monotone_witness :
  let c := snd (stop (__init__ [])) in
  let c' := snd (run_script (SStart (SPrint "x" SReturn)) c) in
  _stopped c = true /\ _stopped c' = true /\
  print "y" c' = (Ret tt, set_lines (_lines c' ++ ["y"]) c').
Proof.
  pose proof (stopped_flag_monotone (snd (stop (__init__ [])))
                (SStart (SPrint "x" SReturn)) "y" eq_refl) as H.
  simpl in H. destruct H as (H1 & H2 & _).
  split; [reflexivity|]. split; [exact H1|exact H2].
Defined.

End ConductorProps.

(** * Properties of the HTTP crawler *)
Module HttpCrawlerProps.
Import HttpCrawler.

(** ** Events *)

Lemma count_if_app {A} (p : A -> bool) (l1 l2 : list A) :
  count_if p (l1 ++ l2) = count_if p l1 + count_if p l2.
Proof. induction l1 as [|x l1 IH]; simpl; [done|]. rewrite IH. lia. Qed.

Lemma add_events_twice (evs1 evs2 : list Event) (c : HttpCrawler) :
  add_events evs2 (add_events evs1 c) = add_events (evs1 ++ evs2) c.
Proof. unfold add_events. simpl. by rewrite <- app_assoc. Qed.

Lemma emit_as_add_events (ev : Event) (c : HttpCrawler) :
  emit ev c = add_events [ev] c.
Proof. reflexivity. Qed.

Lemma auth_calls_add_events (evs : list Event) (c : HttpCrawler) :
  auth_calls (add_events evs c) = auth_calls c + count_if is_authenticate evs.
Proof. unfold auth_calls. simpl. apply count_if_app. Qed.

Lemma save_calls_add_events (evs : list Event) (c : HttpCrawler) :
  save_calls (add_events evs c) = save_calls c + count_if is_save evs.
Proof. unfold save_calls. simpl. apply count_if_app. Qed.

(** ** Saving the cookies *)

Section WithExternals.
Variable X : Externals.

Lemma _save_cookies_spec (c : HttpCrawler) :
  _save_cookies X c = (Ret tt, add_events (save_cookies_events X c) c).
Proof.
  unfold _save_cookies, save_cookies_events, bind, modify, truthy. simpl.
  destruct (_current_cookie_jar c) as [jar|] eqn:Hjar; simpl;
    [|by rewrite !emit_as_add_events, add_events_twice].
  destruct (jar_truth X jar); simpl;
    [|by rewrite !emit_as_add_events, add_events_twice].
  unfold try_except, bind, jar_save_call, modify. simpl. rewrite Hjar.
  replace (save_calls (emit (LogExplainTopic "Saving cookies") c))
    with (save_calls c)
    by (rewrite emit_as_add_events, save_calls_add_events; simpl; lia).
  destruct (jar_save X _ _ _);
    by rewrite !emit_as_add_events, !add_events_twice.
Qed.

Lemma save_cookies_events_no_auth (c : HttpCrawler) :
  count_if is_authenticate (save_cookies_events X c) = 0.
Proof.
  unfold save_cookies_events.
  destruct (_current_cookie_jar c) as [jar|]; [|done].
  destruct (jar_truth X jar); [|done].
  by destruct (jar_save X _ _ _).
Qed.

Lemma save_cookies_events_saves (c : HttpCrawler) :
  count_if is_save (save_cookies_events X c) =
  if truthy X (_current_cookie_jar c) then 1 else 0.
Proof.
  unfold save_cookies_events, truthy.
  destruct (_current_cookie_jar c) as [jar|]; [|done].
  destruct (jar_truth X jar); [|done].
  by destruct (jar_save X _ _ _).
Qed.

(** ** The refresh under the lock *)

Lemma authenticate_refresh_ok (c : HttpCrawler) :
  fst (_authenticate_impl X (auth_calls c) (_current_cookie_jar c)) = None ->
  authenticate_refresh X c =
  (Ret tt, add_events (save_cookies_events X (refreshed X c)) (refreshed X c)).
Proof.
  intros Hok. unfold authenticate_refresh, bind, _authenticate, modify.
  unfold refreshed.
  destruct (_authenticate_impl X _ _) as [r jar]. simpl in *. subst r.
  by rewrite _save_cookies_spec.
Qed.

Lemma authenticate_refresh_raises (c : HttpCrawler) (e : Exn) :
  fst (_authenticate_impl X (auth_calls c) (_current_cookie_jar c)) = Some e ->
  authenticate_refresh X c =
  (Exc e,
   set_current_cookie_jar
     (snd (_authenticate_impl X (auth_calls c) (_current_cookie_jar c)))
     (emit EvAuthenticate c)).
Proof.
  intros Hraise. unfold authenticate_refresh, bind, _authenticate.
  destruct (_authenticate_impl X _ _) as [r jar]. simpl in *. by subst r.
Qed.

Lemma authenticate_refresh_cases (c : HttpCrawler) :
  let (r, c') := authenticate_refresh X c in
  _authentication_lock c' = _authentication_lock c /\
  auth_calls c' = S (auth_calls c) /\
  ((r = Ret tt /\ _authentication_id c' = (_authentication_id c + 1)%Z) \/
   (exists e, r = Exc e /\ _authentication_id c' = _authentication_id c /\
              save_calls c' = save_calls c)).
Proof.
  destruct (fst (_authenticate_impl X (auth_calls c) (_current_cookie_jar c)))
    as [e|] eqn:Himpl.
  - rewrite (authenticate_refresh_raises c e Himpl). simpl.
    split; [done|]. split.
    + rewrite emit_as_add_events.
      change (auth_calls (add_events [EvAuthenticate] c) = S (auth_calls c)).
      rewrite auth_calls_add_events. simpl. lia.
    + right. exists e. repeat split.
      change (save_calls (add_events [EvAuthenticate] c) = save_calls c).
      rewrite save_calls_add_events. simpl. lia.
  - rewrite (authenticate_refresh_ok c Himpl). simpl.
    split; [done|]. split; [|by left].
    rewrite auth_calls_add_events, save_cookies_events_no_auth.
    change (auth_calls (add_events [EvAuthenticate] c) + 0 = S (auth_calls c)).
    rewrite auth_calls_add_events. simpl. lia.
Qed.

(** ** Single stretches of a task *)

Lemma unlock_lock_free (c : HttpCrawler) :
  _authentication_lock c = false ->
  set_authentication_lock false (set_authentication_lock true c) = c.
Proof. intros Hl. destruct c; simpl in *. by subst. Qed.

Lemma step_task_stale (current_id : Z) (c : HttpCrawler) :
  _authentication_lock c = false ->
  current_id <> _authentication_id c ->
  step_task X (AuthCalled current_id) c = Some (AuthEnded (Ret tt), c).
Proof.
  intros Hl Hne. simpl. rewrite Hl, bool_decide_true by done.
  by rewrite unlock_lock_free.
Qed.

Lemma step_task_current (current_id : Z) (c : HttpCrawler) :
  _authentication_lock c = false ->
  current_id = _authentication_id c ->
  step_task X (AuthCalled current_id) c =
  Some (AuthAwaiting current_id, set_authentication_lock true c).
Proof.
  intros Hl He. simpl. rewrite Hl, bool_decide_false; [done|]. by intros ?.
Qed.

Lemma step_task_prepare (c : HttpCrawler) :
  _authentication_lock c = false ->
  step_task X PrepareCalled c =
  Some (PrepareReturned (_authentication_id c), c).
Proof. intros Hl. simpl. by rewrite Hl, unlock_lock_free. Qed.

Lemma step_task_weight (pc pc' : Pc) (c c' : HttpCrawler) :
  step_task X pc c = Some (pc', c') -> weight pc' < weight pc.
Proof.
  destruct pc as [|v|cid|cid|r]; simpl; try done.
  - destruct (_authentication_lock c); [done|]. intros [= <- _]. simpl. lia.
  - destruct (_authentication_lock c); [done|].
    case_bool_decide; intros [= <- _]; simpl; lia.
  - destruct (authenticate_refresh X c). intros [= <- _]. simpl. lia.
Qed.

Lemma step_task_blocked (pc : Pc) (c : HttpCrawler) :
  _authentication_lock c = true -> called pc = true ->
  step_task X pc c = None.
Proof. intros Hl Hc. destruct pc; try done; simpl; by rewrite Hl. Qed.

Lemma step_task_enabled (pc : Pc) (c : HttpCrawler) :
  ended pc = false ->
  _authentication_lock c = false \/ called pc = false ->
  is_Some (step_task X pc c).
Proof.
  intros He Hl. destruct pc as [|v|cid|cid|r]; try done; simpl.
  - destruct Hl as [->|?]; [by eexists|done].
  - destruct Hl as [->|?]; [|done]. case_bool_decide; by eexists.
  - destruct (authenticate_refresh X c). by eexists.
Qed.

(** ** The scheduler *)

Lemma foldr_weight_insert (l : list Pc) (i : nat) (pc pc' : Pc) :
  l !! i = Some pc -> weight pc' < weight pc ->
  foldr (fun pc n => weight pc + n) 0 (<[i := pc']> l)
  < foldr (fun pc n => weight pc + n) 0 l.
Proof.
  revert i. induction l as [|x l IH]; intros [|i] Hi Hw; simpl in *;
    try done.
  - injection Hi as ->. lia.
  - specialize (IH i Hi Hw). lia.
Qed.

Lemma step_total_weight (i : nat) (s s' : System) :
  step X i s = Some s' -> total_weight s' < total_weight s.
Proof.
  unfold step. destruct (pool s !! i) as [pc|] eqn:Hi; [|done].
  destruct (step_task X pc (crawler s)) as [[pc' c']|] eqn:Hs; [|done].
  intros [= <-]. unfold total_weight. simpl.
  eapply foldr_weight_insert; [done|]. by eapply step_task_weight.
Qed.

Lemma schedule_invariant (P : System -> Prop) :
  (forall i s s', P s -> step X i s = Some s' -> P s') ->
  forall sched s, P s -> P (schedule X sched s).
Proof.
  intros Hstep sched. induction sched as [|i rest IH]; intros s Hs; simpl;
    [done|].
  destruct (step X i s) as [s'|] eqn:Hi; apply IH; [|done].
  by eapply Hstep.
Qed.

Lemma step_length (i : nat) (s s' : System) :
  step X i s = Some s' -> length (pool s') = length (pool s).
Proof.
  unfold step. destruct (pool s !! i) as [pc|]; [|done].
  destruct (step_task X pc (crawler s)) as [[pc' c']|]; [|done].
  intros [= <-]. simpl. apply length_insert.
Qed.

Lemma lock_has_holder_step (i : nat) (s s' : System) :
  lock_has_holder s -> step X i s = Some s' -> lock_has_holder s'.
Proof.
  unfold step, lock_has_holder. intros Hinv.
  destruct (pool s !! i) as [pc|] eqn:Hi; [|done].
  assert (Hlt : i < length (pool s)) by (by eapply lookup_lt_Some).
  destruct pc as [|v|cid|cid|r]; simpl; try done.
  - destruct (_authentication_lock (crawler s)); [done|].
    by intros [= <-].
  - destruct (_authentication_lock (crawler s)); [done|].
    case_bool_decide; intros [= <-]; simpl; [done|].
    intros _. exists i, cid. by apply list_lookup_insert_eq.
  - destruct (authenticate_refresh X (crawler s)). by intros [= <-].
Qed.

Lemma not_all_ended (s : System) :
  all_ended s = false ->
  exists i pc, pool s !! i = Some pc /\ ended pc = false.
Proof.
  unfold all_ended. induction (pool s) as [|x l IH]; simpl; [done|].
  destruct (ended x) eqn:Hx; simpl.
  - intros Hl. destruct (IH Hl) as (i & pc & Hi & Hpc).
    by exists (S i), pc.
  - intros _. by exists 0, x.
Qed.

(** A pool whose lock has a holder is never stuck: while some task has not
    ended, some task can be resumed, and resuming it brings the pool
    closer to its end. *)
Lemma pool_progress (s : System) :
  lock_has_holder s -> all_ended s = false ->
  exists i s', step X i s = Some s' /\ total_weight s' < total_weight s.
Proof.
  intros Hinv Hne.
  assert (Hen : exists i pc, pool s !! i = Some pc /\
                             is_Some (step_task X pc (crawler s))).
  { destruct (_authentication_lock (crawler s)) eqn:Hl.
    - destruct (Hinv Hl) as (i & cid & Hi). exists i, (AuthAwaiting cid).
      split; [done|]. apply step_task_enabled; [done|by right].
    - destruct (not_all_ended s Hne) as (i & pc & Hi & Hpc).
      exists i, pc. split; [done|]. apply step_task_enabled; [done|by left]. }
  destruct Hen as (i & pc & Hi & [[pc' c'] Hs]).
  assert (Hstep : step X i s = Some (mkSystem c' (<[i := pc']> (pool s)))).
  { unfold step. by rewrite Hi, Hs. }
  eexists i, _. split; [done|]. by eapply step_total_weight.
Qed.

(** ** The ids that tasks see *)

Lemma ids_seen_init (c : HttpCrawler) (tasks : list Pc) :
  forallb called tasks = true ->
  ids_seen (_authentication_id c) (mkSystem c tasks).
Proof.
  intros Hc. split; [simpl; lia|]. split; [|by left].
  intros i v Hi. exfalso. simpl in Hi.
  apply list_elem_of_lookup_2, list_elem_of_In in Hi.
  rewrite forallb_forall in Hc. by specialize (Hc _ Hi).
Qed.

Lemma ids_seen_step (id0 : Z) (i : nat) (s s' : System) :
  ids_seen id0 s -> step X i s = Some s' -> ids_seen id0 s'.
Proof.
  unfold step. intros (Hle & Hret & Hend).
  destruct (pool s !! i) as [pc|] eqn:Hi; [|done].
  assert (Hlt : i < length (pool s)) by (by eapply lookup_lt_Some).
  assert (Hend' : forall pc' c', auth_ended pc = false ->
            _authentication_id c' = _authentication_id (crawler s) ->
            _authentication_id c' = id0 \/
            exists j r, <[i := pc']> (pool s) !! j = Some (AuthEnded r)).
  { intros pc' c' Hpc Hid. destruct Hend as [?|(j & r & Hj)]; [left; lia|].
    right. exists j, r. rewrite list_lookup_insert_ne; [done|].
    intros ->. rewrite Hi in Hj. injection Hj as ->. done. }
  assert (Hret' : forall pc' c',
            (forall v, pc' = PrepareReturned v ->
                       v = _authentication_id (crawler s)) ->
            (_authentication_id (crawler s) <= _authentication_id c')%Z ->
            forall j v, <[i := pc']> (pool s) !! j = Some (PrepareReturned v) ->
                        (id0 <= v <= _authentication_id c')%Z).
  { intros pc' c' Hpc Hid j v Hj. destruct (decide (i = j)) as [<-|Hne].
    - rewrite list_lookup_insert_eq in Hj by done. injection Hj as ->.
      rewrite (Hpc v eq_refl). lia.
    - rewrite list_lookup_insert_ne in Hj by done.
      specialize (Hret j v Hj). lia. }
  destruct pc as [|v|cid|cid|r]; simpl; try done.
  - destruct (_authentication_lock (crawler s)); [done|].
    intros [= <-]. split; [done|]. split.
    + apply Hret'; [|simpl; lia]. by intros v [= ->].
    + by apply Hend'.
  - destruct (_authentication_lock (crawler s)); [done|].
    case_bool_decide; intros [= <-]; (split; [done|]); split.
    + apply Hret'; [done|simpl; lia].
    + right. exists i, (Ret tt). by apply list_lookup_insert_eq.
    + apply Hret'; [done|simpl; lia].
    + by apply Hend'.
  - pose proof (authenticate_refresh_cases (crawler s)) as Hcases.
    destruct (authenticate_refresh X (crawler s)) as [r c'].
    destruct Hcases as (_ & _ & Hid). intros [= <-]. simpl.
    assert (Hmono : (_authentication_id (crawler s)
                     <= _authentication_id c')%Z).
    { destruct Hid as [[_ ->]|(e & _ & -> & _)]; lia. }
    unfold ids_seen. simpl. split; [lia|]. split.
    + apply (Hret' _ (set_authentication_lock false c')); [done|done].
    + right. exists i, r. by apply list_lookup_insert_eq.
Qed.

(** ** A storm of calls with the same id *)

Section Storm.
Variables (c0 : HttpCrawler) (N : nat) (t : Z).
Hypothesis lock_free : _authentication_lock c0 = false.
Hypothesis id_is_t : _authentication_id c0 = t.
Hypothesis login_ok :
  fst (_authenticate_impl X (auth_calls c0) (_current_cookie_jar c0)) = None.

Lemma after_refresh_facts :
  _authentication_lock (after_refresh X c0) = false /\
  _authentication_id (after_refresh X c0) = (t + 1)%Z /\
  auth_calls (after_refresh X c0) = S (auth_calls c0).
Proof.
  unfold after_refresh. repeat split; simpl; [by rewrite id_is_t|].
  change (auth_calls
            (add_events
               (save_cookies_events X
                  (refreshed X (set_authentication_lock true c0)))
               (add_events [EvAuthenticate] c0)) = S (auth_calls c0)).
  rewrite !auth_calls_add_events, save_cookies_events_no_auth.
  simpl. lia.
Qed.

Lemma storm_step (i : nat) (s s' : System) :
  storm X c0 N t s -> step X i s = Some s' -> storm X c0 N t s'.
Proof.
  intros Hs. unfold step.
  destruct Hs as [|j Hj|tasks Hlen Hall]; simpl.
  - destruct (replicate N (AuthCalled t) !! i) as [pc|] eqn:Hi; [|done].
    apply lookup_replicate in Hi as [-> Hi].
    rewrite step_task_current by done. intros [= <-].
    by apply storm_in_flight.
  - destruct (decide (j = i)) as [->|Hne].
    + rewrite list_lookup_insert_eq by (by rewrite length_replicate).
      simpl. rewrite authenticate_refresh_ok by done. intros [= <-].
      rewrite list_insert_insert_eq.
      apply storm_refreshed; [by rewrite length_insert, length_replicate|].
      apply Forall_insert; [|by right].
      apply Forall_replicate. by left.
    + rewrite list_lookup_insert_ne by done.
      destruct (replicate N (AuthCalled t) !! i) as [pc|] eqn:Hi; [|done].
      apply lookup_replicate in Hi as [-> Hi].
      by rewrite step_task_blocked.
  - destruct (tasks !! i) as [pc|] eqn:Hi; [|done].
    destruct after_refresh_facts as (Hl & Hid & _).
    destruct (Forall_lookup_1 _ _ _ _ Hall Hi) as [->| ->]; [|done].
    rewrite step_task_stale by (by rewrite ?Hid; try lia).
    intros [= <-]. apply storm_refreshed; [by rewrite length_insert|].
    apply Forall_insert; [done|by right].
Qed.

Lemma storm_schedule (sched : list nat) :
  storm X c0 N t
    (schedule X sched (mkSystem c0 (replicate N (AuthCalled t)))).
Proof.
  apply schedule_invariant; [|apply storm_waiting].
  intros i s s'. apply storm_step.
Qed.

Lemma storm_lock_has_holder (s : System) :
  storm X c0 N t s -> lock_has_holder s.
Proof.
  intros [|j Hj|tasks Hlen Hall] Hl; simpl in *.
  - congruence.
  - exists j, t. apply list_lookup_insert_eq. by rewrite length_replicate.
  - destruct after_refresh_facts. congruence.
Qed.

Lemma storm_auth_calls (s : System) :
  storm X c0 N t s ->
  auth_calls (crawler s) <= S (auth_calls c0) /\
  (_authentication_id (crawler s) = t \/
   _authentication_id (crawler s) = (t + 1)%Z).
Proof.
  intros [|j Hj|tasks Hlen Hall]; cbn [crawler].
  - split; [lia|by left].
  - split; [unfold auth_calls; simpl; lia|by left].
  - destruct after_refresh_facts as (_ & -> & ->). split; [lia|by right].
Qed.

Lemma all_ended_replicate (n : nat) (pc : Pc) :
  0 < n -> ended pc = false -> forallb ended (replicate n pc) = false.
Proof. intros Hn Hpc. destruct n; [lia|]. simpl. by rewrite Hpc. Qed.

Lemma storm_all_ended (s : System) :
  0 < N -> storm X c0 N t s -> all_ended s = true ->
  crawler s = after_refresh X c0 /\
  pool s = replicate N (AuthEnded (Ret tt)).
Proof.
  intros HN [|j Hj|tasks Hlen Hall]; unfold all_ended; simpl.
  - by rewrite all_ended_replicate.
  - intros Hall. rewrite forallb_forall in Hall.
    specialize (Hall (AuthAwaiting t)). simpl in Hall.
    exfalso. apply diff_false_true, Hall.
    apply list_elem_of_In, list_elem_of_lookup. exists j.
    apply list_lookup_insert_eq. by rewrite length_replicate.
  - intros He. split; [done|]. subst N.
    clear HN. induction Hall as [|pc tasks Hpc Hall IH]; [done|].
    simpl in *. apply andb_true_iff in He as [He1 He2].
    destruct Hpc as [->| ->]; [done|]. f_equal. by apply IH.
Qed.
End Storm.

(** ** The methods run by a task alone *)

Lemma prepare_request_spec (c : HttpCrawler) :
  _authentication_lock c = false ->
  prepare_request c = (Ret (_authentication_id c), c).
Proof.
  intros Hl. unfold prepare_request, with_lock, with_asyncio_lock.
  rewrite Hl. unfold try_finally, modify. simpl.
  by rewrite unlock_lock_free.
Qed.

Lemma authenticate_stale (current_id : Z) (c : HttpCrawler) :
  _authentication_lock c = false ->
  current_id <> _authentication_id c ->
  authenticate X current_id c = (Ret tt, c).
Proof.
  intros Hl Hne. unfold authenticate, with_lock, with_asyncio_lock.
  rewrite Hl. unfold try_finally, modify. simpl.
  rewrite bool_decide_true by done. by rewrite unlock_lock_free.
Qed.

Lemma authenticate_current (c : HttpCrawler) :
  _authentication_lock c = false ->
  authenticate X (_authentication_id c) c =
  (fst (authenticate_refresh X (set_authentication_lock true c)),
   set_authentication_lock false
     (snd (authenticate_refresh X (set_authentication_lock true c)))).
Proof.
  intros Hl. unfold authenticate, with_lock, with_asyncio_lock.
  rewrite Hl. unfold try_finally, modify. simpl.
  rewrite bool_decide_false by (by intros ?).
  pose proof (authenticate_refresh_cases (set_authentication_lock true c))
    as Hcases.
  destruct (authenticate_refresh X (set_authentication_lock true c))
    as [r c'].
  destruct Hcases as (_ & _ & [[-> _]|(e & -> & _)]); reflexivity.
Qed.

(** A task that runs alone takes the same steps as the method. *)
Lemma authenticate_alone (current_id : Z) (c : HttpCrawler) :
  _authentication_lock c = false ->
  schedule X [0; 0] (mkSystem c [AuthCalled current_id]) =
  mkSystem (snd (authenticate X current_id c))
           [AuthEnded (fst (authenticate X current_id c))].
Proof.
  intros Hl. destruct (decide (current_id = _authentication_id c)) as [->|Hne].
  - rewrite authenticate_current by done. simpl. unfold step. simpl.
    rewrite Hl, bool_decide_false by (by intros ?). simpl.
    by destruct (authenticate_refresh X (set_authentication_lock true c)).
  - rewrite authenticate_stale by done. simpl. unfold step. simpl.
    rewrite Hl, bool_decide_true by done. simpl.
    by rewrite unlock_lock_free.
Qed.

Lemma prepare_request_alone (c : HttpCrawler) :
  _authentication_lock c = false ->
  schedule X [0] (mkSystem c [PrepareCalled]) =
  mkSystem (snd (prepare_request c))
           [match fst (prepare_request c) with
            | Ret v => PrepareReturned v
            | _ => PrepareCalled
            end].
Proof.
  intros Hl. rewrite prepare_request_spec by done. simpl. unfold step.
  simpl. by rewrite Hl, unlock_lock_free.
Qed.

Lemma run_spec (c : HttpCrawler) :
  run X c =
  (try_finally (Crawler_run X) del_session ;;; _save_cookies X)
    (session_started X c).
Proof.
  unfold run, session_started, bind, modify, try_except, jar_load_call.
  simpl. by destruct (jar_load X (_cookie_jar_path c)).
Qed.

Lemma total_weight_storm (N : nat) (t : Z) (c : HttpCrawler) :
  total_weight (mkSystem c (replicate N (AuthCalled t))) = 2 * N.
Proof.
  unfold total_weight. simpl. induction N as [|N IH]; simpl in *; lia.
Qed.

Lemma total_weight_schedule (sched : list nat) (s : System) :
  total_weight (schedule X sched s) <= total_weight s.
Proof.
  revert s. induction sched as [|i rest IH]; intros s; simpl; [lia|].
  destruct (step X i s) as [s'|] eqn:Hi; [|apply IH].
  pose proof (step_total_weight i s s' Hi). specialize (IH s'). lia.
Qed.
End WithExternals.

(** ** Refreshing the authentication *)

(** C1: a call of [authenticate] whose id differs from the crawler's id when
    it gets the lock does not authenticate and changes nothing.  When [N]
    tasks call [authenticate(t)] with [t] the id at the time of the calls
    and the login goes through, then under every schedule of the tasks
    [_authenticate] is called at most once and the id is [t] or [t + 1];
    while a task has not ended some task can be resumed, and at most [2 N]
    resumptions are possible; and once all tasks have ended,
    [_authenticate] has been called exactly once, the id is [t + 1], every
    call has returned normally, and a further [authenticate(t)] returns
    without a call of [_authenticate] and without any other effect. *)
Theorem refresh_storm_authenticates_once (X : Externals) (c0 : HttpCrawler)
    (N : nat) (t : Z) (sched : list nat) :
  0 < N ->
  _authentication_lock c0 = false ->
  _authentication_id c0 = t ->
  fst (_authenticate_impl X (auth_calls c0) (_current_cookie_jar c0)) = None ->
  let s := schedule X sched (mkSystem c0 (replicate N (AuthCalled t))) in
  (forall current_id c,
      _authentication_lock c = false ->
      current_id <> _authentication_id c ->
      step_task X (AuthCalled current_id) c = Some (AuthEnded (Ret tt), c) /\
      authenticate X current_id c = (Ret tt, c)) /\
  (auth_calls (crawler s) <= S (auth_calls c0) /\
   (_authentication_id (crawler s) = t \/
    _authentication_id (crawler s) = (t + 1)%Z)) /\
  (total_weight s <= 2 * N /\
   (all_ended s = false ->
    exists i s', step X i s = Some s' /\ total_weight s' < total_weight s)) /\
  (all_ended s = true ->
   auth_calls (crawler s) = S (auth_calls c0) /\
   _authentication_id (crawler s) = (t + 1)%Z /\
   pool s = replicate N (AuthEnded (Ret tt)) /\
   authenticate X t (crawler s) = (Ret tt, crawler s)).
Proof.
  intros HN Hl Hid Hok s.
  pose proof (storm_schedule X c0 N t Hl Hid Hok sched) as Hstorm.
  fold s in Hstorm.
  split; [|split; [|split]].
  - intros current_id c Hlc Hne.
    split; [by apply step_task_stale|by apply authenticate_stale].
  - by eapply storm_auth_calls.
  - split.
    + subst s. etransitivity; [apply total_weight_schedule|].
      by rewrite total_weight_storm.
    + apply pool_progress. by eapply storm_lock_has_holder.
  - intros Hend.
    destruct (storm_all_ended X c0 N t s HN Hstorm Hend) as [Hc Hp].
    destruct (after_refresh_facts X c0 t Hid) as (Hl' & Hid' & Hcalls).
    rewrite Hc. repeat split; try done.
    apply authenticate_stale; [done|]. rewrite Hid'. lia.
Qed.

(** Five tasks call [authenticate(0)] on a new crawler and are resumed in
    turn: one call of [_authenticate], id 1, five normal returns. *)
Lemma refresh_storm_witness :
  let s := schedule working_site [0; 1; 2; 3; 4; 0; 1; 2; 3; 4]
             (mkSystem (__init__ ".cookies") (replicate 5 (AuthCalled 0))) in
  auth_calls (crawler s) = 1 /\
  _authentication_id (crawler s) = 1%Z /\
  pool s = replicate 5 (AuthEnded (Ret tt)).
Proof.
  intros s.
  destruct (refresh_storm_authenticates_once working_site (__init__ ".cookies")
              5 0 [0; 1; 2; 3; 4; 0; 1; 2; 3; 4]
              (Nat.lt_0_succ 4) eq_refl eq_refl eq_refl)
    as (_ & _ & _ & Hend).
  destruct (Hend eq_refl) as (H1 & H2 & H3 & _).
  exact (conj H1 (conj H2 H3)).
Defined.

(** C2: when [_authenticate] raises in a call of [authenticate] that found
    the ids equal, the call raises that same exception; the id is what it
    was, the lock is free again, and the only new event is the call of
    [_authenticate]: the cookies are not saved and nothing is logged.  A
    task of the pool that awaits the login ends in the same way. *)
Theorem failed_authentication_keeps_id (X : Externals) (c : HttpCrawler)
    (e : Exn) :
  _authentication_lock c = false ->
  fst (_authenticate_impl X (auth_calls c) (_current_cookie_jar c)) = Some e ->
  let r := authenticate X (_authentication_id c) c in
  fst r = Exc e /\
  _authentication_id (snd r) = _authentication_id c /\
  _authentication_lock (snd r) = false /\
  trace (snd r) = trace c ++ [EvAuthenticate] /\
  save_calls (snd r) = save_calls c /\
  step_task X (AuthAwaiting (_authentication_id c))
            (set_authentication_lock true c)
  = Some (AuthEnded (Exc e), snd r).
Proof.
  intros Hl Hraise r. subst r. rewrite authenticate_current by done.
  simpl.
  rewrite (authenticate_refresh_raises X (set_authentication_lock true c) e)
    by done.
  simpl. repeat split.
  unfold save_calls. simpl. rewrite count_if_app. simpl. lia.
Qed.

(** The class's own [_authenticate] raises [RuntimeError]. *)
Lemma failed_authentication_witness :
  let r := authenticate broken_login 0 (__init__ ".cookies") in
  fst r =
    Exc (RuntimeError
      "_authenticate() was called but crawler doesn't provide an implementation") /\
  _authentication_id (snd r) = 0%Z /\
  save_calls (snd r) = 0.
Proof.
  intros r.
  destruct (failed_authentication_keeps_id broken_login (__init__ ".cookies")
              _ eq_refl eq_refl) as (H1 & H2 & _ & _ & H5 & _).
  exact (conj H1 (conj H2 H5)).
Defined.

(** ** Cookie persistence *)

(** C8, as the code has it: cookie persistence failures are never fatal.
    [_save_cookies] always returns normally; it calls the jar's [save]
    exactly when the crawler has a cookie jar whose truth value is true, and
    a failure of that [save] is logged as a warning; otherwise it logs that
    the save is aborted and saves nothing.  A failing load at the start of
    [run] is absorbed and the crawl starts with an empty jar.
    [_save_cookies] is what follows every successful authentication, also
    for a task of the pool, and what [run] ends with when the crawl has
    returned normally and [del self.session] finds the attribute. *)
Theorem cookie_persistence_never_fatal (X : Externals) (c : HttpCrawler) :
  _save_cookies X c = (Ret tt, add_events (save_cookies_events X c) c) /\
  (truthy X (_current_cookie_jar c) = false ->
   save_cookies_events X c =
   [LogExplainTopic "Saving cookies";
    LogExplain "No cookie jar, save aborted"]) /\
  (forall jar,
      _current_cookie_jar c = Some jar -> jar_truth X jar = true ->
      save_cookies_events X c =
      [LogExplainTopic "Saving cookies";
       EvSave (_cookie_jar_path c) jar;
       match jar_save X (save_calls c) (_cookie_jar_path c) jar with
       | None =>
           LogExplain
             ("Cookies saved to " +:+ fmt_real_path X (_cookie_jar_path c))
       | Some _ =>
           LogWarn
             ("Failed to save cookies to "
              +:+ fmt_real_path X (_cookie_jar_path c))
       end]) /\
  (run X c =
   (try_finally (Crawler_run X) del_session ;;; _save_cookies X)
     (session_started X c) /\
   forall e, jar_load X (_cookie_jar_path c) = inl e ->
             _current_cookie_jar (session_started X c) = Some []) /\
  (fst (_authenticate_impl X (auth_calls c) (_current_cookie_jar c)) = None ->
   authenticate_refresh X c = _save_cookies X (refreshed X c) /\
   step_task X (AuthAwaiting (_authentication_id c)) c =
   Some (AuthEnded (Ret tt),
         set_authentication_lock false
           (snd (_save_cookies X (refreshed X c))))) /\
  (forall c', Crawler_run X (session_started X c) = (Ret tt, c') ->
              is_Some (session c') ->
              run X c = _save_cookies X (set_session None c')).
Proof.
  split; [apply _save_cookies_spec|].
  split; [|split; [|split; [|split]]].
  - unfold save_cookies_events, truthy.
    destruct (_current_cookie_jar c) as [jar|]; [|done]. by intros ->.
  - intros jar Hjar Htrue. unfold save_cookies_events.
    by rewrite Hjar, Htrue.
  - split; [apply run_spec|]. intros e He. unfold session_started.
    by rewrite He.
  - intros Hok. rewrite authenticate_refresh_ok by done.
    rewrite _save_cookies_spec. split; [done|]. simpl.
    rewrite authenticate_refresh_ok by done. done.
  - intros c' Hrun [sess Hsess]. rewrite run_spec.
    unfold bind, try_finally, del_session. by rewrite Hrun, Hsess.
Qed.

(** A run on a disk that cannot be written: the load fails, the crawl
    authenticates once, both saves fail, and [run] returns normally with two
    warnings in the log. *)
Lemma cookie_persistence_witness :
  let X := mkExternals "PFERD" "3.0" (fun p => p)
             (_authenticate_impl broken_disk) (jar_truth broken_disk)
             (jar_load broken_disk) (jar_save broken_disk)
             (authenticate broken_disk 0) in
  run X (__init__ ".cookies") =
  (Ret tt,
   {| _cookie_jar_path := ".cookies";
      _authentication_id := 1;
      _authentication_lock := false;
      _current_cookie_jar := Some ["session=1"];
      session := None;
      trace := [EvLoad ".cookies"; EvAuthenticate;
                LogExplainTopic "Saving cookies";
                EvSave ".cookies" ["session=1"];
                LogWarn "Failed to save cookies to .cookies";
                LogExplainTopic "Saving cookies";
                EvSave ".cookies" ["session=1"];
                LogWarn "Failed to save cookies to .cookies"] |}).
Proof.
  intros X.
  destruct (cookie_persistence_never_fatal X (__init__ ".cookies"))
    as (_ & _ & _ & _ & _ & Hrun).
  rewrite (Hrun _ eq_refl (ex_intro _ _ eq_refl)). reflexivity.
Defined.

(** C8, as stated, fails.  On a crawler that has no cookie jar a successful
    authentication increments the id and saves nothing; and when the crawl
    raises, [run] ends with that exception and without a save, although the
    jar holds a cookie. *)
Lemma authentication_and_session_end_without_save :
  (let r := authenticate working_site 0 (__init__ ".cookies") in
   fst r = Ret tt /\ _authentication_id (snd r) = 1%Z /\
   auth_calls (snd r) = 1 /\ save_calls (snd r) = 0) /\
  (let r := run broken_crawl (__init__ ".cookies") in
   fst r = Exc (OtherError "CrawlError" "network down") /\
   _current_cookie_jar (snd r) = Some ["session=0"] /\
   save_calls (snd r) = 0).
Proof. by vm_compute. Qed.

(** ** Reading the authentication id *)

(** C9: [prepare_request] waits while the lock is held; with the lock free
    it returns the authentication id and leaves the crawler exactly as it
    was, as a method and as a task of the pool.  In a pool of tasks that
    call [prepare_request] or [authenticate] on a new crawler, under every
    schedule: as long as no call of [authenticate] has ended, every
    [prepare_request] that has returned has returned 0; and while a task
    has not ended some task can be resumed, each resumption bringing the
    pool closer to its end. *)
Theorem prepare_request_reads_id (X : Externals) (path : string)
    (tasks : list Pc) (sched : list nat) :
  forallb called tasks = true ->
  let s := schedule X sched (mkSystem (__init__ path) tasks) in
  (forall c, _authentication_lock c = true ->
             step_task X PrepareCalled c = None) /\
  (forall c, _authentication_lock c = false ->
             prepare_request c = (Ret (_authentication_id c), c) /\
             step_task X PrepareCalled c =
             Some (PrepareReturned (_authentication_id c), c)) /\
  (forallb (fun pc => negb (auth_ended pc)) (pool s) = true ->
   _authentication_id (crawler s) = 0%Z /\
   forall i v, pool s !! i = Some (PrepareReturned v) -> v = 0%Z) /\
  (all_ended s = false ->
   exists i s', step X i s = Some s' /\ total_weight s' < total_weight s).
Proof.
  intros Hcalled s. split; [|split; [|split]].
  - intros c Hl. by apply step_task_blocked.
  - intros c Hl.
    split; [by apply prepare_request_spec|by apply step_task_prepare].
  - intros Hnone.
    assert (Hseen : ids_seen 0 s).
    { apply schedule_invariant; [apply ids_seen_step|].
      by apply (ids_seen_init (__init__ path)). }
    destruct Hseen as (Hle & Hret & Hend).
    assert (Hid : _authentication_id (crawler s) = 0%Z).
    { destruct Hend as [?|(i & r & Hi)]; [done|]. exfalso.
      apply list_elem_of_lookup_2, list_elem_of_In in Hi.
      rewrite forallb_forall in Hnone. by specialize (Hnone _ Hi). }
    split; [done|]. intros i v Hi. specialize (Hret i v Hi). lia.
  - apply pool_progress.
    apply schedule_invariant; [apply lock_has_holder_step|]. by intros ?.
Qed.

(** A [prepare_request] called while an authentication is in flight waits
    for it and returns the incremented id. *)
Example prepare_request_during_refresh :
  pool (schedule working_site [1; 0; 1; 0]
          (mkSystem (__init__ ".cookies") [PrepareCalled; AuthCalled 0]))
  = [PrepareReturned 1; AuthEnded (Ret tt)].
Proof. reflexivity. Qed.

(** Three tasks read the id of a new crawler while a fourth has called
    [authenticate(0)] and holds the lock: two read 0 before it got the lock,
    the third waits. *)
Lemma prepare_request_witness :
  let s := schedule working_site [0; 3; 1; 2]
             (mkSystem (__init__ ".cookies")
                [PrepareCalled; PrepareCalled; PrepareCalled; AuthCalled 0]) in
  pool s = [PrepareReturned 0; PrepareCalled; PrepareCalled; AuthAwaiting 0] /\
  forall i v, pool s !! i = Some (PrepareReturned v) -> v = 0%Z.
Proof.
  intros s. split; [reflexivity|].
  destruct (prepare_request_reads_id working_site ".cookies"
              [PrepareCalled; PrepareCalled; PrepareCalled; AuthCalled 0]
              [0; 3; 1; 2] eq_refl) as (_ & _ & Hzero & _).
  exact (proj2 (Hzero eq_refl)).
Defined.

End HttpCrawlerProps.

(** * Further properties of the conductor *)
Module ConductorLawsProps.
Import Conductor ConductorLaws ConductorProps.

(** ** Code that ends *)

Section EndsIn.
Context {St : Type} (R : St -> St -> Prop).
Context `{!Reflexive R} `{!Transitive R}.

Lemma ends_in_ret {A} (a : A) : ends_in R (ret a : Prog St A).
Proof. intros c _. simpl. reflexivity. Qed.

Lemma ends_in_raise {A} (e : Exn) : ends_in R (raise e : Prog St A).
Proof. intros c _. simpl. reflexivity. Qed.

Lemma ends_in_bind {A B} (m : Prog St A) (k : A -> Prog St B) :
  ends_in R m -> (forall a, ends_in R (k a)) -> ends_in R (bind m k).
Proof.
  intros Hm Hk c. unfold bind. specialize (Hm c).
  destruct (m c) as [[a|e|] c']; simpl in *; [|by auto|done].
  intros Hh. etransitivity; [by apply Hm|]. by apply Hk.
Qed.

Lemma ends_in_try_finally {A} (body : Prog St A) (fin : Prog St unit) :
  ends_in R body -> ends_in R fin -> ends_in R (try_finally body fin).
Proof.
  intros Hb Hf c. unfold try_finally. specialize (Hb c).
  destruct (body c) as [[a|e|] c']; simpl in *; [| |done];
    specialize (Hf c'); destruct (fin c') as [[[]|e'|] c'']; simpl in *;
    try done; intros _; (etransitivity; [by apply Hb|by apply Hf]).
Qed.

Lemma ends_in_try_except (body handler : Prog St unit) :
  ends_in R body -> ends_in R handler -> ends_in R (try_except body handler).
Proof.
  intros Hb Hh c. unfold try_except. specialize (Hb c).
  destruct (body c) as [[[]|e|] c']; simpl in *; [by auto| |done].
  intros Hn. etransitivity; [by apply Hb|by apply Hh].
Qed.
End EndsIn.

(** What holds of the primitive operations and is kept by the lock and by
    the progress-bar scope holds of every script. *)
Lemma script_ends_in (R : TerminalConductor -> TerminalConductor -> Prop)
    `{!Reflexive R} `{!Transitive R} :
  (forall A (body : M A), ends_in R body -> ends_in R (with_lock body)) ->
  ends_in R _start -> ends_in R _stop ->
  (forall line, ends_in R (print line)) ->
  (forall bar amount, ends_in R (advance bar amount)) ->
  (forall A d tot (body : ProgressBar -> M A),
      (forall bar, ends_in R (body bar)) -> ends_in R (progress_bar d tot body)) ->
  forall s, ends_in R (run_script s).
Proof.
  intros Hlock Hstart Hstop Hprint Hadv Hbar s.
  induction s as [|e|k IH|k IH|line k IH|bar amount k IH
                  |body IHb k IH|d tot body IHb k IH|body IHb k IH]; simpl.
  - by apply ends_in_ret.
  - by apply ends_in_raise.
  - apply ends_in_bind; [done|by apply Hlock|done].
  - apply ends_in_bind; [done|by apply Hlock|done].
  - by apply ends_in_bind.
  - by apply ends_in_bind.
  - apply ends_in_bind; [done| |done]. apply Hlock.
    apply ends_in_bind; [done|by apply ends_in_ret|]. intros _.
    apply ends_in_try_finally; [done|done|by apply ends_in_ret].
  - apply ends_in_bind; [done| |done]. by apply Hbar.
  - apply ends_in_bind; [done| |done].
    apply ends_in_try_except; [done|done|by apply ends_in_ret].
Qed.

Lemma script_preserves (P : TerminalConductor -> Prop) :
  (forall b c, P c -> P (set_lock b c)) ->
  (forall p c, P c -> P (set_progress p c)) ->
  preserves P _start -> preserves P _stop ->
  (forall line, preserves P (print line)) ->
  forall s, preserves P (run_script s).
Proof.
  intros Hl Hp Hstart Hstop Hprint s.
  induction s as [|e|k IH|k IH|line k IH|bar amount k IH
                  |body IHb k IH|d tot body IHb k IH|body IHb k IH]; simpl.
  - apply preserves_ret.
  - apply preserves_raise.
  - apply preserves_bind; [by apply preserves_with_lock|done].
  - apply preserves_bind; [by apply preserves_with_lock|done].
  - by apply preserves_bind.
  - apply preserves_bind; [|done]. by apply preserves_advance.
  - apply preserves_bind; [|done]. by apply preserves_exclusive_output.
  - apply preserves_bind; [|done]. by apply preserves_progress_bar.
  - apply preserves_bind; [|done]. by apply preserves_catch.
Qed.

(** ** Buffered output *)

Lemma run_prints_stopped (lines : list string) (c : TerminalConductor) :
  _stopped c = true ->
  run_script (prints lines) c = (Ret tt, set_lines (_lines c ++ lines) c).
Proof.
  revert c. induction lines as [|l rest IH]; intros c Hs; simpl.
  - unfold ret, set_lines. rewrite app_nil_r. by destruct c.
  - unfold bind. rewrite print_stopped by done.
    rewrite IH by done. simpl. by rewrite <- app_assoc.
Qed.

(** X1: what is printed between [stop()] and [start()] is kept back and then
    replayed in order.  After [stop()], printing [lines] leaves the terminal
    as it was and appends the lines to the buffer; the following [start()]
    writes the whole buffer to the terminal, oldest line first, and empties
    it. *)
Theorem stopped_output_replayed_in_order (c : TerminalConductor)
    (lines : list string) :
  _lock c = false ->
  (stop ;;; run_script (prints lines)) c =
    (Ret tt, mkConductor true false (Progress_stop (_progress c))
                         (_lines c ++ lines) (terminal c)) /\
  (stop ;;; run_script (prints lines) ;;; start) c =
    (Ret tt, mkConductor true false
                         (Progress_start (Progress_stop (_progress c)))
                         [] (terminal c ++ _lines c ++ lines)).
Proof.
  intros Hl. unfold bind. rewrite stop_spec by done.
  rewrite run_prints_stopped by done. simpl. split; [done|].
  by rewrite start_spec.
Qed.

Lemma stopped_output_replayed_witness :
  (stop ;;; run_script (prints ["a"; "b"]) ;;; start)
    (set_lines ["old"] (__init__ ["shown"])) =
  (Ret tt, mkConductor true false (Progress_start Progress_new) []
                       ["shown"; "old"; "a"; "b"]).
Proof.
  exact (proj2 (stopped_output_replayed_in_order
                  (set_lines ["old"] (__init__ ["shown"])) ["a"; "b"] eq_refl)).
Defined.

Lemma printed_print (line : string) (c : TerminalConductor) :
  flushed c ->
  flushed (snd (print line c)) /\
  printed (snd (print line c)) = printed c ++ [line].
Proof.
  intros Hf. unfold print, printed, flushed in *.
  destruct (_stopped c) eqn:Hs; simpl.
  - split; [by rewrite Hs|]. by rewrite app_assoc.
  - rewrite Hs. rewrite (Hf eq_refl). split; [done|].
    by rewrite !app_nil_r.
Qed.

Lemma same_output_printed (c c' : TerminalConductor) :
  same_output c c' ->
  printed c' = printed c /\ (flushed c -> flushed c').
Proof.
  intros (Ht & Hl & Hs). unfold printed, flushed. rewrite Ht, Hl, Hs. done.
Qed.

Lemma printed_then {A} (m : M A) (k : M unit) (lines : list string)
    (rest : TerminalConductor -> list string) (c : TerminalConductor) :
  flushed (snd (m c)) /\ printed (snd (m c)) = printed c ++ lines ->
  (forall c', flushed c' ->
     flushed (snd (k c')) /\ printed (snd (k c')) = printed c' ++ rest c') ->
  flushed (snd ((m ;;; k) c)) /\
  printed (snd ((m ;;; k) c)) = printed c ++ lines ++ and_then (m c) rest.
Proof.
  intros [Hf Hp] Hk. unfold bind, and_then.
  destruct (m c) as [[a|e|] c']; simpl in *.
  - destruct (Hk c' Hf) as [Hf' Hp']. split; [done|].
    by rewrite Hp', Hp, <- app_assoc.
  - by rewrite app_nil_r.
  - by rewrite app_nil_r.
Qed.

Lemma same_output_try_finally {A} (body : M A) (fin : M unit)
    (c : TerminalConductor) :
  (forall c', same_output c' (snd (fin c'))) ->
  same_output (snd (body c)) (snd (try_finally body fin c)).
Proof.
  intros Hfin. unfold try_finally.
  destruct (body c) as [[a|e|] c']; simpl; [| |done];
    specialize (Hfin c'); by destruct (fin c') as [[[]|e'|] c''].
Qed.

Lemma same_output_with_lock {A} (body : M A) (c : TerminalConductor) :
  _lock c = false ->
  same_output (snd (body (set_lock true c))) (snd (with_lock body c)).
Proof.
  intros Hl. unfold with_lock, with_asyncio_lock. rewrite Hl.
  by apply same_output_try_finally.
Qed.

Lemma printed_with_lock {A} (body : M A) (lines : list string)
    (c : TerminalConductor) :
  flushed c ->
  (flushed (snd (body (set_lock true c))) /\
   printed (snd (body (set_lock true c))) = printed c ++ lines) ->
  flushed (snd (with_lock body c)) /\
  printed (snd (with_lock body c)) =
    printed c ++ (if _lock c then [] else lines).
Proof.
  intros Hc [Hf Hp]. destruct (_lock c) eqn:Hl.
  - unfold with_lock, with_asyncio_lock. rewrite Hl. simpl.
    by rewrite app_nil_r.
  - destruct (same_output_printed _ _ (same_output_with_lock body c Hl))
      as [-> Hfl].
    split; [by apply Hfl|done].
Qed.

Lemma printed_start (c : TerminalConductor) :
  flushed c ->
  flushed (snd (start c)) /\ printed (snd (start c)) = printed c ++ [].
Proof.
  intros Hc. unfold start.
  destruct (printed_with_lock _start [] c Hc) as [Hf Hp].
  - rewrite _start_spec. unfold flushed, printed. simpl.
    by rewrite !app_nil_r.
  - split; [done|]. rewrite Hp. by destruct (_lock c).
Qed.

Lemma printed_stop (c : TerminalConductor) :
  flushed c ->
  flushed (snd (stop c)) /\ printed (snd (stop c)) = printed c ++ [].
Proof.
  intros Hc. unfold stop.
  destruct (printed_with_lock _stop [] c Hc) as [Hf Hp].
  - unfold flushed, printed. simpl. by rewrite app_nil_r.
  - split; [done|]. rewrite Hp. by destruct (_lock c).
Qed.

Lemma printed_advance (bar : ProgressBar) (amount : Q)
    (c : TerminalConductor) :
  flushed c ->
  flushed (snd (advance bar amount c)) /\
  printed (snd (advance bar amount c)) = printed c ++ [].
Proof.
  intros Hc. unfold advance. destruct (Progress_advance _ _ _) as [r p].
  simpl. unfold printed. simpl. by rewrite app_nil_r.
Qed.

Lemma same_output_exclusive_body {A} (body : M A) (c : TerminalConductor) :
  same_output (snd (body c))
    (snd ((call_without_await stop ;;;
           try_finally body (call_without_await start)) c)).
Proof.
  unfold bind, call_without_await, ret.
  by apply (same_output_try_finally body (fun c' => (Ret tt, c'))).
Qed.

Lemma same_output_exit (bar : ProgressBar) (c : TerminalConductor) :
  same_output c (snd (progress_bar_exit bar c)).
Proof.
  unfold progress_bar_exit. by destruct (Progress_remove_task _ _).
Qed.

Lemma printed_script (s : Script) (c : TerminalConductor) :
  flushed c ->
  flushed (snd (run_script s c)) /\
  printed (snd (run_script s c)) = printed c ++ print_calls s c.
Proof.
  revert c.
  induction s as [|e|k IH|k IH|line k IH|bar amount k IH
                  |body IHb k IH|d tot body IHb k IH|body IHb k IH];
    intros c Hc; simpl.
  - by rewrite app_nil_r.
  - by rewrite app_nil_r.
  - apply (printed_then start (run_script k) []);
      [by apply printed_start|done].
  - apply (printed_then stop (run_script k) []);
      [by apply printed_stop|done].
  - apply (printed_then (print line) (run_script k) [line]); [|done].
    by apply printed_print.
  - apply (printed_then (advance bar amount) (run_script k) []);
      [by apply printed_advance|done].
  - apply (printed_then (exclusive_output (run_script body)) (run_script k));
      [|done].
    unfold exclusive_output.
    apply (printed_with_lock _ (print_calls body (set_lock true c)));
      [done|].
    destruct (same_output_printed _ _
                (same_output_exclusive_body (run_script body)
                   (set_lock true c))) as [-> Hfl].
    destruct (IHb (set_lock true c) Hc) as [Hf Hp]. by split; [apply Hfl|].
  - apply (printed_then (progress_bar d tot (fun bar => run_script (body bar)))
             (run_script k)); [|done].
    unfold progress_bar, bind. rewrite progress_bar_enter_spec. simpl.
    set (c1 := set_progress _ c).
    destruct (same_output_printed _ _
                (same_output_try_finally
                   (run_script (body (mkBar (task_index (_progress c)))))
                   (progress_bar_exit (mkBar (task_index (_progress c)))) c1
                   (same_output_exit _))) as [-> Hfl].
    destruct (IHb (mkBar (task_index (_progress c))) c1 Hc) as [Hf Hp].
    by split; [apply Hfl|].
  - apply (printed_then (catch (run_script body)) (run_script k)); [|done].
    unfold catch, try_except, ret.
    destruct (IHb c Hc) as [Hf Hp].
    by destruct (run_script body c) as [[[]|e|] c'].
Qed.

(** X2: no printed line is ever lost or overtaken.  From a conductor whose
    buffer is empty unless it is stopped (a new conductor is one), whatever
    a caller script does and however it ends, the terminal's lines followed
    by the buffered lines are afterwards what they were before, followed by
    exactly the lines that the script passed to [print], in the order of
    the calls; and the buffer is again empty unless the conductor is
    stopped.  In particular one [print] adds its line at the end. *)
Theorem printed_lines_are_kept_in_order (s : Script) (c : TerminalConductor) :
  flushed c ->
  flushed (snd (run_script s c)) /\
  printed (snd (run_script s c)) = printed c ++ print_calls s c /\
  forall line, printed (snd (print line c)) = printed c ++ [line].
Proof.
  intros Hf. destruct (printed_script s c Hf) as [Hf' Hp].
  split; [done|]. split; [done|].
  intros line. by apply printed_print.
Qed.

(** A stopped conductor with a line on the terminal and one in the buffer;
    the script prints, starts, prints inside an exclusive scope that
    raises, and never reaches its last [print]. *)
Lemma printed_lines_are_kept_in_order_witness :
  let c := set_lines ["old"] (set_stopped true (__init__ ["shown"])) in
  let s := SPrint "a" (SStart (SExclusive
             (SPrint "b" (SRaise (OtherError "IOError" "")))
             (SPrint "never" SReturn))) in
  printed (snd (run_script s c)) = ["shown"; "old"; "a"; "b"].
Proof.
  intros c s.
  exact (proj1 (proj2 (printed_lines_are_kept_in_order s c
                         (fun H => match Bool.diff_true_false H with end)))).
Defined.

(** ** The lock *)

Lemma same_lock_with_lock {A} (body : M A) :
  ends_in same_lock body -> ends_in same_lock (with_lock body).
Proof.
  intros Hb c. unfold with_lock, with_asyncio_lock.
  destruct (_lock c) eqn:Hl; [done|].
  specialize (Hb (set_lock true c)). unfold try_finally, modify, same_lock in *.
  destruct (body (set_lock true c)) as [[a|e|] c']; simpl in *; try done;
    by rewrite Hl.
Qed.

Global Instance same_lock_refl : Reflexive same_lock.
Proof. by intros c. Qed.

Global Instance same_lock_trans : Transitive same_lock.
Proof. unfold same_lock. intros c1 c2 c3 H1 H2. congruence. Qed.

(** X3: the lock is released on every way out.  A caller script that ends,
    by returning or by raising, leaves the conductor's lock as it found it,
    however the scoped operations in it were left. *)
Theorem script_releases_lock (s : Script) (c : TerminalConductor) :
  is_hang (fst (run_script s c)) = false ->
  _lock (snd (run_script s c)) = _lock c.
Proof.
  revert c. apply (script_ends_in same_lock).
  - intros A body. apply same_lock_with_lock.
  - intros c _. by rewrite _start_spec.
  - by intros c _.
  - intros line c _. unfold print. by destruct (_stopped c).
  - intros bar amount c _. unfold advance.
    by destruct (Progress_advance _ _ _).
  - intros A d tot body Hb. apply ends_in_bind; try apply _.
    + intros c _. by rewrite progress_bar_enter_spec.
    + intros bar. apply ends_in_try_finally; try apply _; [done|].
      intros c _. unfold progress_bar_exit.
      by destruct (Progress_remove_task _ _).
Qed.

Lemma script_releases_lock_witness :
  let s := SExclusive (SBar "d" None (fun bar =>
              SAdvance bar (1 # 1) (SRaise (OtherError "IOError" "")))
              SReturn) SReturn in
  fst (run_script s (__init__ [])) = Exc (OtherError "IOError" "") /\
  _lock (snd (run_script s (__init__ []))) = false.
Proof.
  intros s. split; [reflexivity|].
  exact (script_releases_lock s (__init__ []) eq_refl).
Defined.

Lemma exclusive_output_blocked {A B} (guarded : M B) (k : M A)
    (c : TerminalConductor) :
  _lock c = false ->
  exclusive_output (with_lock guarded ;;; k) c = (Hang, set_lock true c).
Proof.
  intros Hl. unfold exclusive_output, with_lock, with_asyncio_lock.
  rewrite Hl. unfold try_finally, bind, call_without_await, ret. simpl.
  reflexivity.
Qed.

(** X4: the lock is not reentrant.  Inside an [exclusive_output] scope an
    awaited [start()], an awaited [stop()] and a nested [exclusive_output]
    never resume: the task hangs at that point with the lock held, nothing
    after it runs, and the lock is never released. *)
Theorem locked_operation_in_exclusive_output_hangs (A B : Type) (k : M A)
    (inner : M B) (c : TerminalConductor) :
  _lock c = false ->
  exclusive_output (start ;;; k) c = (Hang, set_lock true c) /\
  exclusive_output (stop ;;; k) c = (Hang, set_lock true c) /\
  exclusive_output (exclusive_output inner ;;; k) c = (Hang, set_lock true c).
Proof.
  intros Hl. repeat split; by apply exclusive_output_blocked.
Qed.

Lemma locked_operation_hangs_witness :
  run_script (SExclusive (SPrint "a" (SStop (SPrint "b" SReturn)))
                         (SPrint "c" SReturn)) (__init__ []) =
  (Hang, set_terminal ["a"] (set_lock true (__init__ []))) /\
  exclusive_output (stop ;;; print "b") (__init__ []) =
  (Hang, set_lock true (__init__ [])).
Proof.
  split; [reflexivity|].
  exact (proj1 (proj2 (locked_operation_in_exclusive_output_hangs
                         unit unit (print "b") (ret tt) (__init__ []) eq_refl))).
Defined.

(** ** The task table *)

Global Instance same_tasks_refl : Reflexive same_tasks.
Proof. intros c Hf. by repeat split. Qed.

Global Instance same_tasks_trans : Transitive same_tasks.
Proof.
  intros c1 c2 c3 H12 H23 Hf.
  destruct (H12 Hf) as (Hf2 & Hd2 & Hi2).
  destruct (H23 Hf2) as (Hf3 & Hd3 & Hi3).
  split; [done|]. split; [congruence|lia].
Qed.

Lemma ends_in_with_lock (R : TerminalConductor -> TerminalConductor -> Prop)
    `{!Transitive R} {A} (body : M A) :
  (forall b c, R c (set_lock b c)) ->
  ends_in R body -> ends_in R (with_lock body).
Proof.
  intros Hl Hb c. unfold with_lock, with_asyncio_lock.
  destruct (_lock c); [done|].
  specialize (Hb (set_lock true c)). unfold try_finally, modify.
  destruct (body (set_lock true c)) as [[a|e|] c']; simpl in *; try done;
    intros _; (etransitivity; [apply (Hl true)|]);
    (etransitivity; [by apply Hb|apply Hl]).
Qed.

Lemma same_tasks_progress (c : TerminalConductor) (p : Progress) :
  tasks p = tasks (_progress c) -> task_index p = task_index (_progress c) ->
  same_tasks c (set_progress p c).
Proof.
  intros Ht Hi Hf. unfold ids_fresh in *. simpl. rewrite Ht, Hi.
  by repeat split.
Qed.

Lemma same_tasks_advance (bar : ProgressBar) (amount : Q) :
  ends_in same_tasks (advance bar amount).
Proof.
  intros c _ Hf. unfold advance, Progress_advance.
  destruct (tasks (_progress c) !! _taskid bar) as [t|] eqn:Ht; simpl;
    [|by repeat split].
  split; [|split; [|done]].
  - intros j Hj. simpl in *. apply Hf.
    destruct (decide (_taskid bar = j)) as [<-|Hne]; [by eexists|].
    by rewrite lookup_insert_ne in Hj.
  - rewrite dom_insert_L.
    assert (_taskid bar ∈ dom (tasks (_progress c)))
      by (apply elem_of_dom; by eexists).
    set_solver.
Qed.

Lemma same_tasks_progress_bar {A} (d : string) (tot : option Q)
    (body : ProgressBar -> M A) :
  (forall bar, ends_in same_tasks (body bar)) ->
  ends_in same_tasks (progress_bar d tot body).
Proof.
  intros Hb c Hh Hf. revert Hh.
  unfold progress_bar, bind. rewrite progress_bar_enter_spec.
  set (id := task_index (_progress c)).
  set (c1 := set_progress _ c).
  rewrite try_finally_hang by apply progress_bar_exit_returns.
  intros Hh.
  assert (Hf1 : ids_fresh (_progress c1)).
  { intros j Hj. simpl in *.
    destruct (decide (id = j)) as [<-|Hne]; [lia|].
    rewrite lookup_insert_ne in Hj by done. specialize (Hf j Hj). lia. }
  destruct (Hb (mkBar id) c1 Hh Hf1) as (Hf2 & Hd2 & Hi2).
  assert (Hnew : tasks (_progress c) !! id = None).
  { destruct (tasks (_progress c) !! id) eqn:E; [|done].
    assert (id < id) by (apply Hf; by eexists). lia. }
  unfold try_finally.
  destruct (body (mkBar id) c1) as [[a|e|] c2]; simpl in *; try done;
    unfold progress_bar_exit, Progress_remove_task; simpl;
    (assert (Hin : id ∈ dom (tasks (_progress c2)))
       by (rewrite Hd2, dom_insert_L; set_solver));
    apply elem_of_dom in Hin as [t Ht]; rewrite Ht; simpl;
    (split; [|split; [|lia]]);
    try (intros j Hj; simpl in *; apply Hf2;
         destruct (decide (id = j)) as [<-|Hne];
           [by rewrite lookup_delete_eq in Hj; destruct Hj
           |by rewrite lookup_delete_ne in Hj]);
    rewrite dom_delete_L, Hd2, dom_insert_L;
    apply not_elem_of_dom in Hnew; set_solver.
Qed.

(** X5: progress bars do not leak.  From a task table whose ids were all
    handed out by the engine's counter (an empty table is one), a caller
    script that ends, by returning or by raising, leaves the table with
    exactly the ids it had before: every bar opened by the script, at any
    depth, has been removed.  The counter never goes back, so ids are not
    handed out twice. *)
Theorem script_leaves_no_task (s : Script) (c : TerminalConductor) :
  ids_fresh (_progress c) ->
  is_hang (fst (run_script s c)) = false ->
  ids_fresh (_progress (snd (run_script s c))) /\
  dom (tasks (_progress (snd (run_script s c)))) = dom (tasks (_progress c)) /\
  task_index (_progress c) <= task_index (_progress (snd (run_script s c))).
Proof.
  intros Hf Hh. revert c Hh Hf. apply (script_ends_in same_tasks).
  - intros A body. apply ends_in_with_lock; [apply _|].
    intros b c Hf. by repeat split.
  - intros c _. rewrite _start_spec. by intros Hf.
  - intros c _. by intros Hf.
  - intros line c _ Hf. unfold print. by destruct (_stopped c).
  - apply same_tasks_advance.
  - intros A d tot body. apply same_tasks_progress_bar.
Qed.

Lemma script_leaves_no_task_witness :
  let s := SBar "outer" None (fun outer =>
             SBar "inner" (Some (2 # 1)) (fun inner =>
               SAdvance inner (1 # 1) (SAdvance outer (1 # 1) SReturn))
             (SRaise (OtherError "IOError" ""))) SReturn in
  dom (tasks (_progress (snd (run_script s (__init__ []))))) = ∅ /\
  task_index (_progress (snd (run_script s (__init__ [])))) = 2.
Proof.
  intros s.
  destruct (script_leaves_no_task s (__init__ [])) as (_ & Hdom & _).
  - intros id [t Ht]. simpl in Ht. by rewrite lookup_empty in Ht.
  - reflexivity.
  - split; [rewrite Hdom; apply dom_empty_L|reflexivity].
Defined.

Lemma advance_unknown (bar : ProgressBar) (amount : Q)
    (c : TerminalConductor) :
  tasks (_progress c) !! _taskid bar = None ->
  advance bar amount c = (Exc (KeyError (_taskid bar)), c).
Proof.
  intros Hn. unfold advance, Progress_advance. rewrite Hn. by destruct c.
Qed.

(** X6: a handle works inside its scope only.  Right after the scope is
    entered, [advance] adds the amount to the progress of the new task and
    touches no other task; once the scope has been left, [advance] on the
    same handle raises [KeyError] and changes nothing. *)
Theorem advance_only_inside_scope (A : Type) (d : string) (tot : option Q)
    (amount : Q) (body : ProgressBar -> M A) (c : TerminalConductor) :
  let bar := mkBar (task_index (_progress c)) in
  let entered := snd (progress_bar_enter d tot c) in
  let left := snd (progress_bar d tot body c) in
  (fst (advance bar amount entered) = Ret tt /\
   tasks (_progress (snd (advance bar amount entered))) !! _taskid bar =
     Some (mkTask d tot (0 + amount)%Q
                  match tot with Some _ => true | None => false end) /\
   forall j, j <> _taskid bar ->
     tasks (_progress (snd (advance bar amount entered))) !! j =
     tasks (_progress c) !! j) /\
  (is_hang (fst (progress_bar d tot body c)) = false ->
   advance bar amount left = (Exc (KeyError (_taskid bar)), left)).
Proof.
  intros bar entered left. subst bar entered left. split.
  - rewrite progress_bar_enter_spec. unfold advance, Progress_advance.
    simpl. rewrite lookup_insert_eq. simpl. repeat split.
    + by rewrite lookup_insert_eq.
    + intros j Hj. by rewrite !lookup_insert_ne.
  - intros Hh. apply (advance_unknown (mkBar _)). simpl.
    revert Hh. unfold progress_bar, bind. rewrite progress_bar_enter_spec.
    rewrite try_finally_hang by apply progress_bar_exit_returns.
    intros Hh.
    apply (try_finally_post _ _
             (fun c' => tasks (_progress c') !! task_index (_progress c) = None));
      [|done].
    intros c'. apply (progress_bar_exit_absent (mkBar _)).
Qed.

Lemma advance_only_inside_scope_witness :
  let c := __init__ [] in
  let left := snd (progress_bar "d" None (fun bar => advance bar (3 # 1)) c) in
  advance (mkBar 0) (1 # 1) left = (Exc (KeyError 0), left).
Proof.
  intros c left.
  exact (proj2 (advance_only_inside_scope unit "d" None (1 # 1)
                  (fun bar => advance bar (3 # 1)) c) eq_refl).
Defined.

End ConductorLawsProps.

(** * Further properties of the crawler's tasks *)
Module HttpCrawlerLawsProps.
Import HttpCrawler HttpCrawlerLaws HttpCrawlerProps.

Lemma count_if_insert {A} (p : A -> bool) (l : list A) (i : nat) (x y : A) :
  l !! i = Some x ->
  count_if p (<[i := y]> l) + (if p x then 1 else 0)
  = count_if p l + (if p y then 1 else 0).
Proof.
  revert i. induction l as [|z l IH]; intros [|i] Hi; simpl in *; try done.
  - injection Hi as ->. lia.
  - specialize (IH i Hi). lia.
Qed.

Lemma count_if_zero {A} (p : A -> bool) (l : list A) (i : nat) (x : A) :
  count_if p l = 0 -> l !! i = Some x -> p x = false.
Proof.
  revert i. induction l as [|z l IH]; intros [|i] Hc Hi; simpl in *; try done.
  - injection Hi as ->. destruct (p x); [lia|done].
  - apply (IH i); [|done]. destruct (p z); lia.
Qed.

Lemma count_if_all {A} (p : A -> bool) (l : list A) :
  forallb p l = true -> count_if p l = length l.
Proof.
  induction l as [|z l IH]; simpl; [done|].
  intros [-> Hl]%andb_true_iff. by rewrite IH.
Qed.

Lemma count_if_none {A} (p q : A -> bool) (l : list A) :
  forallb q l = true -> (forall x, q x = true -> p x = false) ->
  count_if p l = 0.
Proof.
  intros Hl Hpq. induction l as [|z l IH]; simpl in *; [done|].
  apply andb_true_iff in Hl as [Hz Hl]. by rewrite (Hpq z Hz), IH.
Qed.

Section WithExternals.
Variable X : Externals.

(** ** One login at a time *)

Lemma one_in_flight_step (i : nat) (s s' : System) :
  one_in_flight s -> step X i s = Some s' -> one_in_flight s'.
Proof.
  unfold step, one_in_flight. intros [Hcount Hcur].
  destruct (pool s !! i) as [pc|] eqn:Hi; [|done].
  assert (Hlt : i < length (pool s)) by (by eapply lookup_lt_Some).
  assert (Hother : forall pc' j cid,
            <[i := pc']> (pool s) !! j = Some (AuthAwaiting cid) ->
            in_flight pc' = false -> pool s !! j = Some (AuthAwaiting cid)).
  { intros pc' j cid Hj Hpc'. destruct (decide (i = j)) as [<-|Hne].
    - rewrite list_lookup_insert_eq in Hj by done. by injection Hj as ->.
    - by rewrite list_lookup_insert_ne in Hj. }
  destruct pc as [|v|cid|cid|r]; simpl; try done.
  - destruct (_authentication_lock (crawler s)) eqn:Hl; [done|].
    intros [= <-]. simpl.
    pose proof (count_if_insert in_flight _ i _
                  (PrepareReturned (_authentication_id (crawler s))) Hi) as Hc.
    simpl in Hc. split; [lia|]. intros j cid' Hj. by eapply Hcur, Hother.
  - destruct (_authentication_lock (crawler s)) eqn:Hl; [done|].
    case_bool_decide as Hne; intros [= <-]; simpl.
    + pose proof (count_if_insert in_flight _ i _ (AuthEnded (Ret tt)) Hi)
        as Hc.
      simpl in Hc. split; [lia|]. intros j cid' Hj. by eapply Hcur, Hother.
    + pose proof (count_if_insert in_flight _ i _ (AuthAwaiting cid) Hi)
        as Hc.
      simpl in Hc. split; [lia|]. intros j cid' Hj.
      destruct (decide (i = j)) as [<-|Hnej].
      * rewrite list_lookup_insert_eq in Hj by done. injection Hj as <-.
        simpl. lia.
      * rewrite list_lookup_insert_ne in Hj by done.
        by pose proof (count_if_zero in_flight _ _ _ Hcount Hj).
  - destruct (authenticate_refresh X (crawler s)) as [r c'].
    intros [= <-]. simpl.
    pose proof (count_if_insert in_flight _ i _ (AuthEnded r) Hi) as Hc.
    simpl in Hc.
    assert (Hzero : count_if in_flight (<[i:=AuthEnded r]> (pool s)) = 0).
    { destruct (_authentication_lock (crawler s)); lia. }
    split; [done|]. intros j cid' Hj.
    by pose proof (count_if_zero in_flight _ _ _ Hzero Hj).
Qed.

Lemma one_in_flight_init (c : HttpCrawler) (tasks : list Pc) :
  _authentication_lock c = false -> forallb called tasks = true ->
  one_in_flight (mkSystem c tasks).
Proof.
  intros Hl Hc. assert (Hz : count_if in_flight tasks = 0).
  { eapply count_if_none; [done|]. by intros []. }
  split; simpl; [by rewrite Hl|].
  intros i cid Hi. by pose proof (count_if_zero in_flight _ _ _ Hz Hi).
Qed.
End WithExternals.

(** X7: one login at a time.  In a pool of tasks that call
    [prepare_request] or [authenticate] on a crawler whose lock is free,
    under every schedule and whatever the logins do: at most one task is
    awaiting [_authenticate()], the lock is held exactly while one is, and
    that task was called with the id the crawler has at that moment. *)
Theorem one_login_in_flight (X : Externals) (c : HttpCrawler)
    (tasks : list Pc) (sched : list nat) :
  _authentication_lock c = false ->
  forallb called tasks = true ->
  let s := schedule X sched (mkSystem c tasks) in
  count_if in_flight (pool s) <= 1 /\
  (_authentication_lock (crawler s) = true <->
   count_if in_flight (pool s) = 1) /\
  forall i current_id,
    pool s !! i = Some (AuthAwaiting current_id) ->
    current_id = _authentication_id (crawler s).
Proof.
  intros Hl Hc s.
  assert (Hinv : one_in_flight s).
  { apply schedule_invariant; [apply one_in_flight_step|].
    by apply one_in_flight_init. }
  destruct Hinv as [Hcount Hcur]. rewrite Hcount.
  destruct (_authentication_lock (crawler s)); repeat split; try done; lia.
Qed.

Lemma one_login_in_flight_witness :
  let s := schedule working_site [2; 0; 1; 3]
             (mkSystem (__init__ ".cookies")
                [AuthCalled 0; PrepareCalled; AuthCalled 0; AuthCalled 5]) in
  pool s = [AuthCalled 0; PrepareCalled; AuthAwaiting 0; AuthCalled 5] /\
  count_if in_flight (pool s) <= 1.
Proof.
  intros s. split; [reflexivity|].
  exact (proj1 (one_login_in_flight working_site (__init__ ".cookies")
                  [AuthCalled 0; PrepareCalled; AuthCalled 0; AuthCalled 5]
                  [2; 0; 1; 3] eq_refl eq_refl)).
Defined.

(** ** The id and the logins *)

Lemma logins_counted_step (X : Externals) (c0 : HttpCrawler) (i : nat)
    (s s' : System) :
  logins_counted c0 s -> step X i s = Some s' -> logins_counted c0 s'.
Proof.
  unfold step, logins_counted. intros (Hle & Hid & Hcalls).
  destruct (pool s !! i) as [pc|] eqn:Hi; [|done].
  destruct pc as [|v|cid|cid|r]; simpl; try done.
  - destruct (_authentication_lock (crawler s)); [done|].
    intros [= <-]. simpl.
    pose proof (count_if_insert auth_ended _ i _
                  (PrepareReturned (_authentication_id (crawler s))) Hi) as Hc.
    simpl in Hc. unfold auth_calls in *. simpl. lia.
  - destruct (_authentication_lock (crawler s)); [done|].
    case_bool_decide; intros [= <-]; simpl.
    + pose proof (count_if_insert auth_ended _ i _ (AuthEnded (Ret tt)) Hi)
        as Hc.
      simpl in Hc. unfold auth_calls in *. simpl. lia.
    + pose proof (count_if_insert auth_ended _ i _ (AuthAwaiting cid) Hi)
        as Hc.
      simpl in Hc. unfold auth_calls in *. simpl. lia.
  - pose proof (authenticate_refresh_cases X (crawler s)) as Hcases.
    destruct (authenticate_refresh X (crawler s)) as [r c'].
    destruct Hcases as (_ & Hc' & Hid'). intros [= <-]. simpl.
    pose proof (count_if_insert auth_ended _ i _ (AuthEnded r) Hi) as Hc.
    simpl in Hc.
    change (auth_calls (set_authentication_lock false c')) with (auth_calls c').
    destruct Hid' as [[_ Hid']|(e & _ & Hid' & _)]; rewrite Hid'; lia.
Qed.

Lemma count_if_disjoint {A} (p q : A -> bool) (l : list A) :
  (forall x, p x = true -> q x = false) ->
  count_if p l + count_if q l <= length l.
Proof.
  intros Hpq. induction l as [|x l IH]; simpl; [lia|].
  specialize (Hpq x). destruct (p x), (q x); try lia.
  all: by specialize (Hpq eq_refl).
Qed.

(** X8: the id counts logins.  In a pool of tasks on a crawler [c], under
    every schedule, at every moment and whatever the logins do: the
    authentication id never goes down; it has gone up by at most the number
    of calls of [_authenticate] that have ended since the beginning; the
    calls of [_authenticate] made since the beginning, the one in flight
    included, are at most one for every call of [authenticate] that has
    ended or is awaiting its login; and those are at most as many as the
    pool has tasks. *)
Theorem id_counts_logins (X : Externals) (c : HttpCrawler) (tasks : list Pc)
    (sched : list nat) :
  forallb called tasks = true ->
  let s := schedule X sched (mkSystem c tasks) in
  (_authentication_id c <= _authentication_id (crawler s))%Z /\
  (_authentication_id (crawler s) - _authentication_id c
   <= Z.of_nat (auth_calls (crawler s)) - Z.of_nat (auth_calls c))%Z /\
  logins_begun s
   <= auth_calls c + count_if auth_ended (pool s)
      + count_if in_flight (pool s) /\
  count_if auth_ended (pool s) + count_if in_flight (pool s) <= length tasks.
Proof.
  intros Hc s.
  assert (Hinv : logins_counted c s).
  { apply schedule_invariant; [apply logins_counted_step|].
    unfold logins_counted. simpl. repeat split; lia. }
  destruct Hinv as (H1 & H2 & H3).
  split; [done|]. split; [done|]. split; [unfold logins_begun; lia|].
  assert (Hlen : length (pool s) = length tasks).
  { subst s. apply (schedule_invariant X
      (fun s => length (pool s) = length tasks)); [|done].
    intros i s s' Hs Hstep. by rewrite (step_length X i s s' Hstep). }
  rewrite <- Hlen. apply count_if_disjoint. by intros [].
Qed.

(** Two tasks called [authenticate(0)]; the first has got the lock and
    awaits its login: one call made, none ended, the id still 0. *)
Lemma id_counts_logins_witness :
  let s := schedule working_site [0; 1]
             (mkSystem (__init__ ".cookies") [AuthCalled 0; AuthCalled 0]) in
  pool s = [AuthAwaiting 0; AuthCalled 0] /\
  logins_begun s = 1 /\ auth_calls (crawler s) = 0 /\
  logins_begun s
   <= 0 + count_if auth_ended (pool s) + count_if in_flight (pool s).
Proof.
  intros s. split; [reflexivity|]. split; [reflexivity|].
  split; [reflexivity|].
  exact (proj1 (proj2 (proj2 (id_counts_logins working_site
                                (__init__ ".cookies")
                                [AuthCalled 0; AuthCalled 0] [0; 1]
                                eq_refl)))).
Defined.

Lemma unobserved_step (X : Externals) (v : Z) (i : nat) (s s' : System) :
  one_in_flight s /\
  (_authentication_id (crawler s) <= v)%Z /\
  count_if (observes v) (pool s) = 0 ->
  step X i s = Some s' ->
  one_in_flight s' /\
  (_authentication_id (crawler s') <= v)%Z /\
  count_if (observes v) (pool s') = 0.
Proof.
  intros (Hone & Hle & Hobs) Hstep.
  split; [by eapply one_in_flight_step|]. revert Hstep. unfold step.
  destruct (pool s !! i) as [pc|] eqn:Hi; [|done].
  pose proof (count_if_zero (observes v) _ _ _ Hobs Hi) as Hpc.
  destruct pc as [|w|cid|cid|r]; simpl; try done.
  - destruct (_authentication_lock (crawler s)); [done|].
    intros [= <-]. simpl. split; [done|].
    pose proof (count_if_insert (observes v) _ i _
                  (PrepareReturned (_authentication_id (crawler s))) Hi) as Hc.
    simpl in Hc. lia.
  - destruct (_authentication_lock (crawler s)); [done|].
    case_bool_decide; intros [= <-]; simpl; (split; [done|]).
    + pose proof (count_if_insert (observes v) _ i _ (AuthEnded (Ret tt)) Hi)
        as Hc.
      simpl in *. rewrite Hpc in Hc. lia.
    + pose proof (count_if_insert (observes v) _ i _ (AuthAwaiting cid) Hi)
        as Hc.
      simpl in *. rewrite Hpc in Hc. lia.
  - pose proof (authenticate_refresh_cases X (crawler s)) as Hcases.
    destruct (authenticate_refresh X (crawler s)) as [r c'].
    destruct Hcases as (_ & _ & Hid'). intros [= <-]. simpl. split.
    + destruct Hone as [_ Hcur]. specialize (Hcur i cid Hi).
      simpl in Hpc. apply bool_decide_eq_false in Hpc.
      destruct Hid' as [[_ ->]|(e & _ & -> & _)]; lia.
    + pose proof (count_if_insert (observes v) _ i _ (AuthEnded r) Hi) as Hc.
      simpl in *. rewrite Hpc in Hc. lia.
Qed.

(** X9: the id moves only past values that a task has observed.  If the
    id of the crawler is at most [v] and no task of the pool is a call
    [authenticate(v)], then under every schedule, and however many logins
    succeed, the id never exceeds [v]: it is incremented only by a task
    that was called with the id the crawler has. *)
Theorem id_stops_at_unobserved_value (X : Externals) (c : HttpCrawler)
    (tasks : list Pc) (sched : list nat) (v : Z) :
  _authentication_lock c = false ->
  forallb called tasks = true ->
  (_authentication_id c <= v)%Z ->
  count_if (observes v) tasks = 0 ->
  (_authentication_id (crawler (schedule X sched (mkSystem c tasks))) <= v)%Z.
Proof.
  intros Hl Hc Hle Hobs.
  apply (schedule_invariant X
           (fun s => one_in_flight s /\
                     (_authentication_id (crawler s) <= v)%Z /\
                     count_if (observes v) (pool s) = 0)).
  - intros i s s'. apply unobserved_step.
  - split; [by apply one_in_flight_init|done].
Qed.

(** Tasks that observed 0, 1 and 3: the id stops at 2. *)
Lemma id_stops_at_unobserved_value_witness :
  let s := schedule working_site [0; 0; 1; 1; 2; 2; 3; 3]
             (mkSystem (__init__ ".cookies")
                [AuthCalled 0; AuthCalled 1; AuthCalled 3; AuthCalled 0]) in
  _authentication_id (crawler s) = 2%Z /\
  (_authentication_id (crawler s) <= 2)%Z.
Proof.
  intros s. split; [reflexivity|].
  exact (id_stops_at_unobserved_value working_site (__init__ ".cookies")
           [AuthCalled 0; AuthCalled 1; AuthCalled 3; AuthCalled 0]
           [0; 0; 1; 1; 2; 2; 3; 3] 2 eq_refl eq_refl
           ltac:(simpl; lia) eq_refl).
Defined.

(** ** A storm of calls when the login fails *)

Lemma failing_storm_step (X : Externals) (c0 : HttpCrawler) (N : nat) (t : Z)
    (i : nat) (s s' : System) :
  (forall k jar, is_Some (fst (_authenticate_impl X k jar))) ->
  failing_storm c0 N t s -> step X i s = Some s' -> failing_storm c0 N t s'.
Proof.
  intros Hfail (Hlen & Hid & Hall & Hcalls). unfold step, failing_storm.
  destruct (pool s !! i) as [pc|] eqn:Hi; [|done].
  pose proof (Forall_lookup_1 _ _ _ _ Hall Hi) as Hpc.
  destruct Hpc as [->|[->|[e ->]]]; simpl; [| |done].
  - destruct (_authentication_lock (crawler s)); [done|].
    rewrite bool_decide_false by (by intros ?). intros [= <-]. simpl.
    pose proof (count_if_insert ended _ i _ (AuthAwaiting t) Hi) as Hc.
    simpl in Hc. rewrite length_insert. repeat split; try done.
    + apply Forall_insert; [done|]. right. by left.
    + unfold auth_calls in *. simpl. lia.
  - destruct (Hfail (auth_calls (crawler s))
                    (_current_cookie_jar (crawler s))) as [e He].
    rewrite (authenticate_refresh_raises X (crawler s) e He).
    intros [= <-]. simpl.
    pose proof (count_if_insert ended _ i _ (AuthEnded (Exc e)) Hi) as Hc.
    simpl in Hc. rewrite length_insert. repeat split; try done.
    + apply Forall_insert; [done|]. right. right. by eexists.
    + unfold auth_calls in *. simpl. rewrite count_if_app. simpl. lia.
Qed.

(** X10: a failed login is not shared.  When [N] tasks call
    [authenticate(t)] with [t] the crawler's id and every login fails, then
    under every schedule the id stays [t] and no call returns normally;
    once all calls have ended, every one of them has raised and
    [_authenticate] has been called [N] times: each task that gets the
    lock finds the id unchanged and tries the login again. *)
Theorem failed_login_is_retried_by_every_task (X : Externals)
    (c0 : HttpCrawler) (N : nat) (t : Z) (sched : list nat) :
  (forall k jar, is_Some (fst (_authenticate_impl X k jar))) ->
  _authentication_id c0 = t ->
  let s := schedule X sched (mkSystem c0 (replicate N (AuthCalled t))) in
  _authentication_id (crawler s) = t /\
  (forall i, pool s !! i <> Some (AuthEnded (Ret tt))) /\
  (all_ended s = true ->
   auth_calls (crawler s) = auth_calls c0 + N /\
   forall i pc, pool s !! i = Some pc -> exists e, pc = AuthEnded (Exc e)).
Proof.
  intros Hfail Hid s.
  assert (Hinv : failing_storm c0 N t s).
  { apply schedule_invariant; [intros i s1 s2; by apply failing_storm_step|].
    unfold failing_storm. simpl. rewrite length_replicate.
    repeat split; try done.
    - apply Forall_replicate. by left.
    - rewrite (count_if_none ended called); [lia| |by intros []].
      clear. induction N; simpl; [done|by rewrite IHN]. }
  destruct Hinv as (Hlen & Hid' & Hall & Hcalls).
  split; [done|]. split.
  - intros i Hi. pose proof (Forall_lookup_1 _ _ _ _ Hall Hi) as Hpc.
    by destruct Hpc as [?|[?|[e ?]]].
  - intros Hend. split.
    + rewrite Hcalls. unfold all_ended in Hend.
      by rewrite (count_if_all ended _ Hend), Hlen.
    + intros i pc Hi. pose proof (Forall_lookup_1 _ _ _ _ Hall Hi) as Hpc.
      unfold all_ended in Hend. rewrite forallb_forall in Hend.
      apply list_elem_of_lookup_2, list_elem_of_In, Hend in Hi.
      destruct Hpc as [->|[->|Hpc]]; done.
Qed.

(** Three calls on a crawler whose class does not override [_authenticate]:
    three attempts, three [RuntimeError]s, id still 0. *)
Lemma failed_login_is_retried_witness :
  let s := schedule broken_login [0; 1; 2; 0; 1; 2; 1; 2; 2]
             (mkSystem (__init__ ".cookies") (replicate 3 (AuthCalled 0))) in
  auth_calls (crawler s) = 3 /\ _authentication_id (crawler s) = 0%Z.
Proof.
  intros s.
  destruct (failed_login_is_retried_by_every_task broken_login
              (__init__ ".cookies") 3 0 [0; 1; 2; 0; 1; 2; 1; 2; 2]
              (fun _ _ => ex_intro _ _ eq_refl) eq_refl)
    as (Hid & _ & Hend).
  exact (conj (proj1 (Hend eq_refl)) Hid).
Defined.

(** ** The end of a run *)

(** X11: [run] always removes the session it made.  When the crawl ends
    and has left [self.session] in place, the crawler has no session after
    [run]; if the crawl raised, [run] raises the same exception and neither
    saves the cookies nor logs anything more.  If the crawl has deleted
    [self.session] itself, [run] raises [AttributeError] instead of
    whatever the crawl did, and does not save.  The jar the crawl starts
    with never depends on what the crawler held before [run]. *)
Theorem run_removes_session (X : Externals) (c : HttpCrawler) :
  let crawl := Crawler_run X (session_started X c) in
  (is_Some (session (snd crawl)) -> is_hang (fst crawl) = false ->
   session (snd (run X c)) = None) /\
  (forall e, is_Some (session (snd crawl)) -> fst crawl = Exc e ->
             run X c = (Exc e, set_session None (snd crawl))) /\
  (session (snd crawl) = None -> is_hang (fst crawl) = false ->
   run X c = (Exc (OtherError "AttributeError" "session"), snd crawl)) /\
  (forall jar sess,
      _current_cookie_jar
        (session_started X (set_session sess (set_current_cookie_jar jar c)))
      = _current_cookie_jar (session_started X c)).
Proof.
  intros crawl. subst crawl.
  assert (Hjar : forall jar sess,
    _current_cookie_jar
      (session_started X (set_session sess (set_current_cookie_jar jar c)))
    = _current_cookie_jar (session_started X c)).
  { intros jar sess. unfold session_started. simpl.
    by destruct (jar_load X (_cookie_jar_path c)). }
  rewrite run_spec. unfold bind, try_finally, del_session.
  destruct (Crawler_run X (session_started X c)) as [[[]|e|] c'] eqn:Hrun;
    simpl; (split; [|split; [|split; [|exact Hjar]]]); try done.
  - intros [sess Hs] _. rewrite Hs, _save_cookies_spec. done.
  - intros Hs _. by rewrite Hs.
  - intros [sess Hs] _. by rewrite Hs.
  - intros e' [sess Hs] [= <-]. by rewrite Hs.
  - intros Hs _. by rewrite Hs.
Qed.

Lemma run_removes_session_witness :
  run broken_crawl (__init__ ".cookies") =
  (Exc (OtherError "CrawlError" "network down"),
   {| _cookie_jar_path := ".cookies"; _authentication_id := 0;
      _authentication_lock := false;
      _current_cookie_jar := Some ["session=0"];
      session := None; trace := [EvLoad ".cookies"] |}).
Proof.
  exact (proj1 (proj2 (run_removes_session broken_crawl (__init__ ".cookies")))
           _ (ex_intro _ _ eq_refl) eq_refl).
Defined.

(** ** Methods and tasks *)

(** X12: a task that nothing interleaves with does what the method does.
    On a crawler whose lock is free, resuming a lone [authenticate] task
    until it has ended gives the outcome and the crawler that the method
    [authenticate] gives, and likewise for [prepare_request]; so a request
    that reads the id, refreshes with it and reads again sees the id one
    higher if the login succeeds and unchanged if it fails. *)
Theorem lone_task_is_the_method (X : Externals) (current_id : Z)
    (c : HttpCrawler) :
  _authentication_lock c = false ->
  schedule X [0; 0] (mkSystem c [AuthCalled current_id]) =
    mkSystem (snd (authenticate X current_id c))
             [AuthEnded (fst (authenticate X current_id c))] /\
  schedule X [0] (mkSystem c [PrepareCalled]) =
    mkSystem c [PrepareReturned (_authentication_id c)] /\
  prepare_request c = (Ret (_authentication_id c), c) /\
  fst ((id <- prepare_request ;; authenticate X id ;;; prepare_request) c) =
    match fst (_authenticate_impl X (auth_calls c) (_current_cookie_jar c)) with
    | None => Ret (_authentication_id c + 1)%Z
    | Some e => Exc e
    end.
Proof.
  intros Hl. split; [by apply authenticate_alone|].
  split.
  { rewrite prepare_request_alone by done. by rewrite prepare_request_spec. }
  split; [by apply prepare_request_spec|].
  unfold bind. cbv beta. rewrite prepare_request_spec by done.
  rewrite authenticate_current by done.
  destruct (fst (_authenticate_impl X (auth_calls c) (_current_cookie_jar c)))
    as [e|] eqn:Himpl.
  - by rewrite (authenticate_refresh_raises X
                  (set_authentication_lock true c) e Himpl).
  - rewrite (authenticate_refresh_ok X (set_authentication_lock true c) Himpl).
    cbn [fst snd]. rewrite prepare_request_spec by done. simpl. done.
Qed.

Lemma lone_task_is_the_method_witness :
  fst ((id <- prepare_request ;; authenticate working_site id ;;;
        prepare_request) (__init__ ".cookies")) = Ret 1%Z.
Proof.
  exact (proj2 (proj2 (proj2 (lone_task_is_the_method working_site 0
                                (__init__ ".cookies") eq_refl)))).
Defined.

End HttpCrawlerLawsProps.

(** * Properties of the utilities *)
Module UtilsProps.
Import Utils.

(** ** Moving and renaming *)

Lemma take_is_prefix (l from : list string) :
  take (length from) l = from <-> from `prefix_of` l.
Proof.
  split.
  - intros Ht. exists (drop (length from) l).
    rewrite <- Ht at 1. by rewrite take_drop.
  - intros [rest ->]. by rewrite take_app_length.
Qed.

(** X13: [move] swaps a leading run of parts.  When the parts of the path
    begin with [from_folders], the result is the path made of [to_folders]
    followed by the remaining parts, unchanged and in order; in every other
    case, also when [from_folders] is longer than the path, the result is
    [None]. *)
Theorem move_replaces_prefix (L : Pathlib) (path : PurePath)
    (from_folders to_folders : list string) :
  (forall rest,
      parts path = from_folders ++ rest ->
      move L path from_folders to_folders =
      Some (PurePath_new L (to_folders ++ rest))) /\
  (move L path from_folders to_folders = None <->
   ~ from_folders `prefix_of` parts path) /\
  (length (parts path) < length from_folders ->
   move L path from_folders to_folders = None).
Proof.
  unfold move. split; [|split].
  - intros rest Hp. rewrite Hp, take_app_length, drop_app_length.
    by rewrite decide_True.
  - rewrite <- take_is_prefix. by case_decide.
  - intros Hlen. rewrite decide_False; [done|]. intros Ht.
    apply (f_equal length) in Ht. rewrite length_take in Ht. lia.
Qed.

Lemma move_replaces_prefix_witness :
  move posix (mkPath ["a"; "b"; "c.txt"]) ["a"] ["x"; "y"] =
  Some (mkPath ["x"; "y"; "b"; "c.txt"]).
Proof.
  exact (proj1 (move_replaces_prefix posix (mkPath ["a"; "b"; "c.txt"])
                  ["a"] ["x"; "y"]) ["b"; "c.txt"] eq_refl).
Defined.

(** X14: moving there and back.  When the path lies under [from_folders]
    and both the moved parts and the original parts are what the
    constructor makes of them (they are plain names, as the parts of a path
    always are), moving from [from_folders] to [to_folders] and then from
    [to_folders] to [from_folders] gives the path back. *)
Theorem move_there_and_back (L : Pathlib) (path : PurePath)
    (from_folders to_folders rest : list string) :
  parts path = from_folders ++ rest ->
  parts (PurePath_new L (to_folders ++ rest)) = to_folders ++ rest ->
  PurePath_new L (from_folders ++ rest) = path ->
  exists moved,
    move L path from_folders to_folders = Some moved /\
    move L moved to_folders from_folders = Some path.
Proof.
  intros Hp Hto Hfrom. exists (PurePath_new L (to_folders ++ rest)).
  split.
  - by apply move_replaces_prefix.
  - destruct (move_replaces_prefix L (PurePath_new L (to_folders ++ rest))
                to_folders from_folders) as [Hm _].
    rewrite (Hm rest Hto). by rewrite Hfrom.
Qed.

Lemma move_there_and_back_witness :
  exists moved,
    move posix (mkPath ["a"; "b"; "c.txt"]) ["a"] ["x"; "y"] = Some moved /\
    move posix moved ["x"; "y"] ["a"] = Some (mkPath ["a"; "b"; "c.txt"]).
Proof.
  exact (move_there_and_back posix (mkPath ["a"; "b"; "c.txt"]) ["a"]
           ["x"; "y"] ["b"; "c.txt"] eq_refl eq_refl eq_refl).
Defined.

(** X15: [rename] replaces the last part and nothing else.  When the path
    with the new name [a] is what the constructor makes of it, renaming it
    again to [b] is the same as renaming the original path to [b]; and
    renaming a path to the name it has gives the path back, when the
    constructor gives a path back from its own parts. *)
Theorem rename_replaces_last_part (L : Pathlib) (path : PurePath)
    (a b : string) :
  let init := take (length (parts path) - 1) (parts path) in
  parts (PurePath_new L (init ++ [a])) = init ++ [a] ->
  rename L (rename L path a) b = rename L path b /\
  (forall name, parts path = init ++ [name] ->
                PurePath_new L (parts path) = path ->
                rename L path name = path).
Proof.
  intros init Ha. unfold rename. fold init. split.
  - rewrite Ha. rewrite length_app. simpl.
    replace (length init + 1 - 1) with (length init) by lia.
    by rewrite take_app_length.
  - intros name Hp Hnew. by rewrite <- Hp.
Qed.

Lemma rename_replaces_last_part_witness :
  rename posix (rename posix (mkPath ["/"; "a"; "old.txt"]) "tmp") "new.txt"
  = mkPath ["/"; "a"; "new.txt"].
Proof.
  exact (proj1 (rename_replaces_last_part posix
                  (mkPath ["/"; "a"; "old.txt"]) "tmp" "new.txt" eq_refl)).
Defined.

(** ** Resolving inside a directory *)

Lemma elem_of_parents (L : Pathlib) (d p : PurePath) :
  d ∈ parents L p <->
  exists rest, rest <> [] /\ parts p = parts d ++ rest /\
               (anchored L p = true -> parts d <> []).
Proof.
  unfold parents. rewrite list_elem_of_In, in_map_iff.
  set (n := length (parts p)). split.
  - intros (idx & <- & Hidx). apply in_seq in Hidx. simpl.
    exists (drop (n - idx - 1) (parts p)).
    assert (Hn : idx < n) by (destruct (anchored L p); lia).
    split; [|split].
    + intros Hd. apply (f_equal length) in Hd.
      rewrite length_drop in Hd. simpl in Hd. fold n in Hd. lia.
    + by rewrite take_drop.
    + intros Ha Ht. rewrite Ha in Hidx. apply (f_equal length) in Ht.
      rewrite length_take in Ht. simpl in Ht. fold n in Ht. lia.
  - intros (rest & Hrest & Hp & Ha).
    assert (Hr : 0 < length rest) by (destruct rest; [done|simpl; lia]).
    assert (Hn : n = length (parts d) + length rest)
      by (subst n; by rewrite Hp, length_app).
    exists (length rest - 1). split.
    + replace (n - (length rest - 1) - 1) with (length (parts d)) by lia.
      rewrite Hp, take_app_length. by destruct d.
    + apply in_seq. destruct (anchored L p); [|lia].
      assert (0 < length (parts d))
        by (destruct (parts d); [by destruct Ha|simpl; lia]).
      lia.
Qed.

(** X16: [resolve_path] returns strict descendants of the directory only.
    An exception of [resolve] comes out as it is.  Otherwise the resolved
    path is returned exactly when its parts are the parts of [directory]
    followed by at least one more part (and, for a resolved path with a
    root or drive, [directory] has a part at all); in every other case, in
    particular when the target resolves to the directory itself,
    [ResolveException] is raised. *)
Theorem resolve_path_returns_descendants (L : Pathlib)
    (directory target_file : PurePath) :
  (forall e, resolve L (joinpath L directory target_file) = inl e ->
             resolve_path L directory target_file = Exc e) /\
  (forall p, resolve L (joinpath L directory target_file) = inr p ->
     (resolve_path L directory target_file = Ret p <->
      exists rest, rest <> [] /\ parts p = parts directory ++ rest /\
                   (anchored L p = true -> parts directory <> [])) /\
     (resolve_path L directory target_file = Ret p \/
      exists msg, resolve_path L directory target_file =
                  Exc (OtherError "ResolveException" msg)) /\
     (p = directory ->
      exists msg, resolve_path L directory target_file =
                  Exc (OtherError "ResolveException" msg))).
Proof.
  unfold resolve_path. split.
  - by intros e ->.
  - intros p ->. rewrite <- elem_of_parents.
    assert (Hself : p = directory -> directory ∉ parents L p).
    { intros -> (rest & Hrest & Hp & _)%elem_of_parents.
      apply Hrest. apply (f_equal length) in Hp.
      rewrite length_app in Hp. destruct rest; [done|simpl in Hp; lia]. }
    case_bool_decide as Hin; repeat split.
    + done.
    + intros Hd. by destruct Hin.
    + right. eexists. reflexivity.
    + intros _. eexists. reflexivity.
    + by intros _.
    + by left.
    + intros Heq. by destruct (Hself Heq).
Qed.

Lemma resolve_path_returns_descendants_witness :
  resolve_path posix (mkPath ["/"; "out"]) (mkPath ["sub"; "f.pdf"]) =
    Ret (mkPath ["/"; "out"; "sub"; "f.pdf"]) /\
  exists msg, resolve_path posix (mkPath ["/"; "out"]) (mkPath []) =
              Exc (OtherError "ResolveException" msg).
Proof.
  destruct (resolve_path_returns_descendants posix (mkPath ["/"; "out"])
              (mkPath ["sub"; "f.pdf"])) as [_ Hin].
  destruct (resolve_path_returns_descendants posix (mkPath ["/"; "out"])
              (mkPath [])) as [_ Hself].
  split.
  - apply (Hin _ eq_refl). exists ["sub"; "f.pdf"]. by repeat split.
  - by apply (Hself _ eq_refl).
Defined.

(** ** Asking yes or no *)

Section Prompt.
Variable strip_lower : string -> string.
Variables (text : string) (default : option bool).

Lemma turn_answered (line : string) (rest written : list string) (v : bool) :
  answer default (strip_lower line) = Some v ->
  turn strip_lower text default (mkConsole (line :: rest) written) =
  (Ret (Some v), mkConsole rest (written ++ [text])).
Proof.
  intros Hans. unfold answer in Hans. unfold turn, bind, input, ret. simpl.
  destruct (bool_decide (strip_lower line ∈ ["yes"; "ye"; "y"]));
    [by injection Hans as <-|].
  destruct (bool_decide (strip_lower line ∈ ["no"; "n"]));
    [by injection Hans as <-|].
  destruct (bool_decide (strip_lower line = "")); [|done].
  rewrite Hans. by rewrite bool_decide_true.
Qed.

Lemma turn_rejected (line : string) (rest written : list string) :
  answer default (strip_lower line) = None ->
  turn strip_lower text default (mkConsole (line :: rest) written) =
  (Ret None, mkConsole rest ((written ++ [text]) ++ [wrong_reply])).
Proof.
  intros Hans. unfold answer in Hans.
  unfold turn, bind, input, ret, print, modify. simpl.
  destruct (bool_decide (strip_lower line ∈ ["yes"; "ye"; "y"])); [done|].
  destruct (bool_decide (strip_lower line ∈ ["no"; "n"])); [done|].
  destruct (bool_decide (strip_lower line = "")); [|done].
  rewrite Hans. by rewrite bool_decide_false by (by intros ?).
Qed.

Lemma turn_eof (written : list string) :
  turn strip_lower text default (mkConsole [] written) =
  (Exc (OtherError "EOFError" "EOF when reading a line"),
   mkConsole [] (written ++ [text])).
Proof. reflexivity. Qed.

Lemma prompt_loop_unfold (turns : nat) (k : Console) :
  prompt_loop strip_lower text default turns k =
  (r <- turn strip_lower text default ;;
   match r with
   | Some b => ret b
   | None =>
       match turns with
       | 0 => fun k => (Hang, k)
       | S turns' => prompt_loop strip_lower text default turns'
       end
   end) k.
Proof. by destruct turns. Qed.

Lemma prompt_loop_answered (rejected : list string) (line : string)
    (rest : list string) (v : bool) :
  Forall (fun l => answer default (strip_lower l) = None) rejected ->
  answer default (strip_lower line) = Some v ->
  forall turns written,
    length rejected <= turns ->
    prompt_loop strip_lower text default turns
      (mkConsole (rejected ++ line :: rest) written) =
    (Ret v, mkConsole rest (written ++ reprompts text rejected ++ [text])).
Proof.
  intros Hrej Hline. induction Hrej as [|r rs Hr Hrs IH];
    intros turns written Hturns; rewrite prompt_loop_unfold; unfold bind.
  - simpl. by rewrite (turn_answered _ _ _ v).
  - simpl. rewrite turn_rejected by done.
    destruct turns as [|turns]; [simpl in Hturns; lia|].
    rewrite IH by (simpl in Hturns; lia).
    unfold reprompts. simpl. by rewrite <- !app_assoc.
Qed.

Lemma prompt_loop_eof (typed : list string) :
  Forall (fun l => answer default (strip_lower l) = None) typed ->
  forall turns written,
    length typed <= turns ->
    prompt_loop strip_lower text default turns (mkConsole typed written) =
    (Exc (OtherError "EOFError" "EOF when reading a line"),
     mkConsole [] (written ++ reprompts text typed ++ [text])).
Proof.
  intros Hrej. induction Hrej as [|r rs Hr Hrs IH];
    intros turns written Hturns; rewrite prompt_loop_unfold; unfold bind.
  - by rewrite turn_eof.
  - rewrite turn_rejected by done.
    destruct turns as [|turns]; [simpl in Hturns; lia|].
    rewrite IH by (simpl in Hturns; lia).
    unfold reprompts. simpl. by rewrite <- !app_assoc.
Qed.

Lemma first_answer (typed : list string) :
  Forall (fun l => answer default (strip_lower l) = None) typed \/
  exists rejected line rest v,
    typed = rejected ++ line :: rest /\
    Forall (fun l => answer default (strip_lower l) = None) rejected /\
    answer default (strip_lower line) = Some v.
Proof.
  induction typed as [|l typed IH]; [by left|].
  destruct (answer default (strip_lower l)) as [v|] eqn:Hl.
  - right. by exists [], l, typed, v.
  - destruct IH as [Hall|(rejected & line & rest & v & -> & Hrej & Hv)].
    + left. by constructor.
    + right. exists (l :: rejected), line, rest, v.
      split; [done|]. split; [by constructor|done].
Qed.
End Prompt.

(** X17: the first acceptable reply decides.  When the lines typed begin
    with replies that are not accepted and then comes one that is, then
    [prompt_yes_no] returns what that reply stands for and leaves the
    lines after it unread; it has written the prompt before every line it
    read and the notice about wrong replies after every rejected one, and
    nothing else. *)
Theorem first_valid_reply_decides (strip_lower : string -> string)
    (question : string) (default : option bool) (rejected : list string)
    (line : string) (rest written : list string) (v : bool) :
  Forall (fun l => answer default (strip_lower l) = None) rejected ->
  answer default (strip_lower line) = Some v ->
  prompt_yes_no strip_lower question default
    (mkConsole (rejected ++ line :: rest) written) =
  (Ret v,
   mkConsole rest
     (written ++ reprompts (prompt_text question default) rejected
              ++ [prompt_text question default])).
Proof.
  intros Hrej Hline. unfold prompt_yes_no. simpl.
  apply prompt_loop_answered; try done. rewrite length_app. lia.
Qed.

Lemma first_valid_reply_decides_witness :
  prompt_yes_no ascii_strip_lower "Delete?" (Some false)
    (mkConsole ["maybe"; "  YeS "; "n"] []) =
  (Ret true,
   mkConsole ["n"]
     ["Delete? [y/N] "; "Please reply with 'yes'/'y' or 'no'/'n'.";
      "Delete? [y/N] "]).
Proof.
  apply (first_valid_reply_decides ascii_strip_lower "Delete?" (Some false)
           ["maybe"] "  YeS " ["n"] [] true).
  - repeat constructor.
  - reflexivity.
Defined.

(** X18: without an acceptable reply there is no answer.  When none of the
    lines typed is accepted, [prompt_yes_no] reads them all, writes the
    notice about wrong replies after each, prompts once more and raises the
    [EOFError] of [input]; it never returns a value of its own choice. *)
Theorem no_valid_reply_raises_eof (strip_lower : string -> string)
    (question : string) (default : option bool) (typed written : list string) :
  Forall (fun l => answer default (strip_lower l) = None) typed ->
  prompt_yes_no strip_lower question default (mkConsole typed written) =
  (Exc (OtherError "EOFError" "EOF when reading a line"),
   mkConsole []
     (written ++ reprompts (prompt_text question default) typed
              ++ [prompt_text question default])).
Proof.
  intros Hrej. unfold prompt_yes_no. simpl. by apply prompt_loop_eof.
Qed.

(** Without a default an empty reply is not accepted. *)
Lemma no_valid_reply_raises_eof_witness :
  prompt_yes_no ascii_strip_lower "Delete?" None (mkConsole [""; "nope"] []) =
  (Exc (OtherError "EOFError" "EOF when reading a line"),
   mkConsole []
     ["Delete? [y/n] "; "Please reply with 'yes'/'y' or 'no'/'n'.";
      "Delete? [y/n] "; "Please reply with 'yes'/'y' or 'no'/'n'.";
      "Delete? [y/n] "]).
Proof.
  apply (no_valid_reply_raises_eof ascii_strip_lower "Delete?" None
           [""; "nope"] []).
  repeat constructor.
Defined.

Lemma answer_nonempty (d d' : option bool) (response : string) :
  response <> "" -> answer d response = answer d' response.
Proof. intros Hne. unfold answer. by repeat case_bool_decide. Qed.

(** X19: the default stands for the empty reply only, and the loop always
    ends.  Whatever is typed, [prompt_yes_no] returns or raises; and when no
    line typed is empty once stripped, the outcome and the lines left
    unread are the same for every default. *)
Theorem default_only_for_empty_reply (strip_lower : string -> string)
    (question : string) (d d' : option bool) (typed written : list string) :
  is_hang (fst (prompt_yes_no strip_lower question d
                  (mkConsole typed written))) = false /\
  (Forall (fun l => strip_lower l <> "") typed ->
   fst (prompt_yes_no strip_lower question d (mkConsole typed written)) =
   fst (prompt_yes_no strip_lower question d' (mkConsole typed written)) /\
   stdin (snd (prompt_yes_no strip_lower question d
                 (mkConsole typed written))) =
   stdin (snd (prompt_yes_no strip_lower question d'
                 (mkConsole typed written)))).
Proof.
  split.
  - destruct (first_answer strip_lower d typed)
      as [Hall|(rejected & line & rest & v & -> & Hrej & Hv)].
    + by rewrite no_valid_reply_raises_eof.
    + by rewrite (first_valid_reply_decides _ _ _ _ _ _ _ v).
  - intros Hne.
    assert (Hsame : forall l, l ∈ typed ->
              answer d (strip_lower l) = answer d' (strip_lower l)).
    { intros l Hl. apply answer_nonempty.
      rewrite Forall_forall in Hne. by apply Hne. }
    destruct (first_answer strip_lower d typed)
      as [Hall|(rejected & line & rest & v & -> & Hrej & Hv)].
    + assert (Hall' : Forall (fun l => answer d' (strip_lower l) = None) typed).
      { rewrite Forall_forall in *. intros l Hl.
        rewrite <- Hsame by done. by apply Hall. }
      by rewrite !no_valid_reply_raises_eof.
    + assert (Hrej' : Forall (fun l => answer d' (strip_lower l) = None)
                             rejected).
      { rewrite Forall_forall in *. intros l Hl.
        rewrite <- Hsame by (apply elem_of_app; by left). by apply Hrej. }
      assert (Hv' : answer d' (strip_lower line) = Some v).
      { rewrite <- Hsame; [done|]. apply elem_of_app. right. by left. }
      by rewrite !(first_valid_reply_decides _ _ _ _ _ _ _ v).
Qed.

Lemma default_only_for_empty_reply_witness :
  fst (prompt_yes_no ascii_strip_lower "Delete?" (Some true)
         (mkConsole ["what"; "No"] [])) =
  fst (prompt_yes_no ascii_strip_lower "Delete?" None
         (mkConsole ["what"; "No"] [])).
Proof.
  apply (default_only_for_empty_reply ascii_strip_lower "Delete?"
           (Some true) None ["what"; "No"] []).
  repeat constructor; discriminate.
Defined.

End UtilsProps.
